(** * XDRA: a shallow embedding of the model interpreter

    The development follows the Python sources of the repository:
    - [cache.py]         the md5-keyed object cache            (Module [Cache])
    - [executor.py]      the runner of embedded scripts        (Module [Executor])
    - [sort.py]          the record sorter                     (Module [Sort])
    - [conglomerator.py] the file aggregator                   (Module [FileInput])
    - [modelparser.py]   the directive interpreter             (Module [ModelParser])

    Python objects that the code shares and mutates (the source lists of
    an interpreter) live in an explicit store; exceptions are results.
    What the sources import and do not define ([xmlio], the builtins
    [compile] and [exec], the file system) is the class [Env]; the module
    [ETree] gives one environment to run the interpreter in, the module
    [Example] the inputs the properties are evaluated on. *)

From Stdlib Require Import String Ascii List Sorted Permutation Lia NArith.
From Stdlib Require OrderedTypeEx.
From stdpp Require Import base option list gmap strings.

Local Open Scope string_scope.
Local Open Scope list_scope.
Set Warnings "-register-all".

(** ** Python values used by the code *)

(** An element of an XML tree, as the [xmlio] (ElementTree) module gives
    it: tag, attributes in [keys()] order, text, tail and children. *)
Inductive Element : Type :=
  Elem { tag : string;
         attrib : list (string * string);
         text : option string;
         tail : option string;
         children : list Element }.

(** The exceptions the code can raise ([RuntimeError] is what Python 2
    raises when the maximum recursion depth is exceeded). *)
Inductive exn : Type :=
| NameError | AttributeError | TypeError | SyntaxError | RuntimeError
| IOError | ScriptError (msg : string).

Inductive result (A : Type) : Type :=
| Ok (a : A)
| Raise (e : exn).
Arguments Ok {A} a.
Arguments Raise {A} e.

Definition rbind {A B} (r : result A) (k : A -> result B) : result B :=
  match r with
  | Ok a => k a
  | Raise e => Raise e
  end.

Notation "x <~ c ;; k" := (rbind c (fun x => k))
  (at level 100, c at next level, right associativity).

(** Methods that mutate their object are functions of its state that may
    raise; the state reached when the exception left is kept, as the
    mutations of a Python object are. *)
Definition M (S A : Type) : Type := S -> result A * S.

Definition mret {S A} (a : A) : M S A := fun s => (Ok a, s).
Definition mraise {S A} (e : exn) : M S A := fun s => (Raise e, s).
Definition mbind {S A B} (m : M S A) (k : A -> M S B) : M S B :=
  fun s =>
    match m s with
    | (Ok a, s') => k a s'
    | (Raise e, s') => (Raise e, s')
    end.
Definition gets {S A} (f : S -> A) : M S A := fun s => (Ok (f s), s).
Definition modify {S} (f : S -> S) : M S unit := fun s => (Ok tt, f s).
Definition lift_result {S A} (r : result A) : M S A := fun s => (r, s).

(** [try: m  except: h] with a bare [except]. *)
Definition try_except {S A} (m : M S A) (h : M S A) : M S A :=
  fun s =>
    match m s with
    | (Ok a, s') => (Ok a, s')
    | (Raise _, s') => h s'
    end.

Notation "x <- c ;; k" := (mbind c (fun x => k))
  (at level 100, c at next level, right associativity).
Notation "c ;;; k" := (mbind c (fun _ => k))
  (at level 100, right associativity).

(** [d.get(k)] on the attribute dictionary. *)
Fixpoint attrib_get (k : string) (d : list (string * string)) : option string :=
  match d with
  | [] => None
  | (k', v) :: d' => if String.eqb k' k then Some v else attrib_get k d'
  end.

(** Truth value of a string-or-None. *)
Definition truthy (o : option string) : bool :=
  match o with
  | Some (String _ _) => true
  | _ => false
  end.

(** [x or ""] *)
Definition or_empty (o : option string) : string :=
  match o with
  | Some s => s
  | None => ""
  end.

(** [o == s] for a string-or-None [o]. *)
Definition str_is (o : option string) (s : string) : bool :=
  match o with
  | Some x => String.eqb x s
  | None => false
  end.

(** ["".join(l)] *)
Definition join (l : list string) : string := String.concat "" l.

(** [s.endswith(suffix)] *)
Definition endswith (s suffix : string) : bool :=
  let n := String.length s in
  let m := String.length suffix in
  if (m <=? n)%nat then String.eqb (substring (n - m) m s) suffix else false.

(** [s[:-1]] *)
Definition drop_last (s : string) : string :=
  substring 0 (String.length s - 1) s.

(** [c.lower()] on one byte, in the C locale. *)
Definition lower_ascii (c : ascii) : ascii :=
  let n := nat_of_ascii c in
  if ((65 <=? n) && (n <=? 90))%nat then ascii_of_nat (n + 32) else c.

(** [s.lower()] *)
Fixpoint lower (s : string) : string :=
  match s with
  | EmptyString => EmptyString
  | String c s' => String (lower_ascii c) (lower s')
  end.

(** [e.tag == t] *)
Definition tag_is (e : Element) (t : string) : bool := String.eqb (tag e) t.

(** [e.append(c)] *)
Definition append_child (e c : Element) : Element :=
  Elem (tag e) (attrib e) (text e) (tail e) (children e ++ [c]).

(** ** The environment of the program

    What the sources import and do not define: the [xmlio] tree library,
    the builtins [compile] and [exec], and the file system that
    [conglomerator.py] reads. *)
Class Env : Type := {
  (** [element.findall(path)]; the path may be [None]. *)
  findall : option string -> Element -> result (list Element);
  (** [ElementTree.tostring(element)] *)
  tostring : Element -> string;
  (** truth value of an element object ([if item:]) *)
  is_true : Element -> bool;
  (** [ElementTree.parse(path).getroot()] *)
  parse : string -> result Element;
  (** [ElementTree.Element(name)] *)
  new_Element : option string -> Element;
  (** compiled code objects, [compile(code,'<string>','exec')] *)
  codeobj : Type;
  compile : string -> result codeobj;
  (** [exec(out)] with [xdra_tree] bound to the given object: the object
      after the script ran, and the final value of [xdra_outtext]. *)
  exec : codeobj -> option Element -> result (option Element * string);
  (** [glob.glob(normpath(path + '/*.xml'))] *)
  glob_xml : string -> list string;
  (** the [.xml] files under [path], in [os.walk] order, normalised *)
  walk_xml : string -> list string;
  (** [ElementTree.XML(self._openanything(source).read())] *)
  read_xml : option string -> result Element
}.

(** [element.findtext(path)]: text of the first match, [None] without one. *)
Definition findtext `{Env} (path : string) (e : Element) : result (option string) :=
  l <~ findall (Some path) e ;;
  match l with
  | [] => Ok None
  | m :: _ => Ok (Some (or_empty (text m)))
  end.

(** ** sort.py *)
Module Sort.
Section Sort.
Context `{Env}.

(** [x.findtext(".//"+key).lower()] *)
Definition sort_key (key : string) (x : Element) : result string :=
  t <~ findtext (".//" +:+ key) x ;;
  match t with
  | Some s => Ok (lower s)
  | None => Raise AttributeError
  end.

(** [lambda x, y: cmp(x.findtext(..).lower(), y.findtext(..).lower())] *)
Definition cmp_asc (key : string) (x y : Element) : result comparison :=
  a <~ sort_key key x ;;
  b <~ sort_key key y ;;
  Ok (String.compare a b).

(** [lambda x, y: cmp(y.findtext(..).lower(), x.findtext(..).lower())] *)
Definition cmp_desc (key : string) (x y : Element) : result comparison :=
  b <~ sort_key key y ;;
  a <~ sort_key key x ;;
  Ok (String.compare b a).

(** [list.sort(cmpfunc)] is a stable sort; for a comparison function
    that is a total preorder every stable sort gives the same list, so
    it is written here as a stable insertion sort.  An exception of the
    comparison function leaves the sort. *)
Fixpoint insert_by (cmp : Element -> Element -> result comparison)
    (x : Element) (l : list Element) : result (list Element) :=
  match l with
  | [] => Ok [x]
  | y :: l' =>
      c <~ cmp x y ;;
      match c with
      | Gt => r <~ insert_by cmp x l' ;; Ok (y :: r)
      | _ => Ok (x :: y :: l')
      end
  end.

Fixpoint list_sort (cmp : Element -> Element -> result comparison)
    (l : list Element) : result (list Element) :=
  match l with
  | [] => Ok []
  | x :: l' => s <~ list_sort cmp l' ;; insert_by cmp x s
  end.

Definition sort (datalist : list Element) (key : string) (reverse : bool)
    : result (list Element) :=
  if (1 <? length datalist)%nat then
    if reverse then list_sort (cmp_desc key) datalist
    else list_sort (cmp_asc key) datalist
  else Ok datalist.
End Sort.
End Sort.

(** ** cache.py *)

(** A hash object, as [md5.new(text)] returns it.  The type defines neither
  comparison nor hashing, so a dictionary keyed by such objects finds an
  entry only under the very object it was stored with: [md5_id] is the
  identity of the object, [md5_text] the text it digests. *)
Record md5 : Type := { md5_id : nat; md5_text : string }.

Module Cache.
Section Cache.
Context `{Env}.

(** [self.cache], a dictionary from key objects to cached objects;
    [maxsize] is stored and not enforced. *)
Record t : Type := { cache : gmap nat codeobj; maxsize : nat }.

Definition new : t := {| cache := ∅; maxsize := 0 |}.

(** [getkey]: a new hash object over [keytext]; [fresh] is the identity
    the allocation gives it. *)
Definition getkey (keytext : string) (fresh : nat) : md5 :=
  {| md5_id := fresh; md5_text := keytext |}.

(** [add(item, key)]: without a key, [md5.new(item)] is applied to the
    item itself, which for a code object is a [TypeError]. *)
Definition add (item : codeobj) (key : option md5) : M t md5 :=
  match key with
  | None => mraise TypeError
  | Some k =>
      modify (fun c => {| cache := <[md5_id k := item]> (cache c);
                          maxsize := maxsize c |}) ;;;
      mret k
  end.

Definition remove (key : option md5) : M t unit :=
  match key with
  | None => mret tt
  | Some k =>
      modify (fun c => {| cache := delete (md5_id k) (cache c);
                          maxsize := maxsize c |})
  end.

(** [contains(key)]: a stored code object is true. *)
Definition contains (key : option md5) (c : t) : bool :=
  match key with
  | None => false
  | Some k =>
      match cache c !! md5_id k with
      | Some _ => true
      | None => false
      end
  end.

Definition retrieve (key : option md5) (c : t) : option codeobj :=
  match key with
  | None => None
  | Some k => cache c !! md5_id k
  end.
End Cache.
End Cache.

(** ** executor.py *)

(** [code.replace('\r\n','\n')] *)
Fixpoint replace_crlf (s : string) : string :=
match s with
| EmptyString => EmptyString
| String c s' =>
    match c, s' with
    | "013"%char, String "010"%char s'' => String "010"%char (replace_crlf s'')
    | _, _ => String c (replace_crlf s')
    end
end.

Module Executor.
Section Executor.
Context `{Env}.

(** The attributes of an executor.  [code] is [None] while the attribute
    has not been set.  [fresh] is the identity of the next hash object;
    [n_compile] and [n_exec] count the calls of the builtins [compile]
    and [exec]. *)
Record t : Type := {
  execCache : Cache.t;
  name : option string;
  code : option string;
  tree : option Element;
  out : option codeobj;
  key : option md5;
  fresh : nat;
  n_compile : nat;
  n_exec : nat
}.

Definition set_execCache (c : Cache.t) (e : t) : t :=
  {| execCache := c; name := name e; code := code e; tree := tree e;
     out := out e; key := key e; fresh := fresh e;
     n_compile := n_compile e; n_exec := n_exec e |}.
Definition set_out (o : option codeobj) (e : t) : t :=
  {| execCache := execCache e; name := name e; code := code e; tree := tree e;
     out := o; key := key e; fresh := fresh e;
     n_compile := n_compile e; n_exec := n_exec e |}.
Definition count_compile (e : t) : t :=
  {| execCache := execCache e; name := name e; code := code e; tree := tree e;
     out := out e; key := key e; fresh := fresh e;
     n_compile := S (n_compile e); n_exec := n_exec e |}.
Definition count_exec (e : t) : t :=
  {| execCache := execCache e; name := name e; code := code e; tree := tree e;
     out := out e; key := key e; fresh := fresh e;
     n_compile := n_compile e; n_exec := S (n_exec e) |}.

(** [Executor()] *)
Definition new : t :=
  {| execCache := Cache.new; name := None; code := None; tree := None;
     out := None; key := None; fresh := 0; n_compile := 0; n_exec := 0 |}.

Definition setName (n : option string) : M t unit :=
  modify (fun e =>
    {| execCache := execCache e; name := n; code := code e; tree := tree e;
       out := out e; key := key e; fresh := fresh e;
       n_compile := n_compile e; n_exec := n_exec e |}).

Definition setTree (tr : option Element) : M t unit :=
  modify (fun e =>
    {| execCache := execCache e; name := name e; code := code e; tree := tr;
       out := out e; key := key e; fresh := fresh e;
       n_compile := n_compile e; n_exec := n_exec e |}).

(** [setCode]: the stored code has its line ends replaced; the key is
    taken with [getkey(code)], from the argument. *)
Definition setCode (c : option string) : M t unit :=
  if truthy c then
    modify (fun e =>
      {| execCache := execCache e; name := name e;
         code := Some (replace_crlf (or_empty c)); tree := tree e;
         out := out e;
         key := Some (Cache.getkey (or_empty c) (fresh e));
         fresh := S (fresh e);
         n_compile := n_compile e; n_exec := n_exec e |})
  else mret tt.

(** The cache operations on [self.__execCache]. *)
Definition with_cache {A} (m : M Cache.t A) : M t A :=
  fun e =>
    match m (execCache e) with
    | (r, c) => (r, set_execCache c e)
    end.

(** [self.out = compile(self.code,'<string>','exec')] followed by
    [self.__execCache.add(self.out, self.key)]. *)
Definition compile_and_add : M t unit :=
  src <- gets code ;;
  match src with
  | None => mraise AttributeError
  | Some c =>
      modify count_compile ;;;
      o <- lift_result (compile c) ;;
      modify (set_out (Some o)) ;;;
      k <- gets key ;;
      with_cache (Cache.add o k) ;;;
      mret tt
  end.

(** [exec(self.out)] with [xdra_tree] bound to [self.tree]; the tree
    object is the one the caller handed to [setTree]. *)
Definition exec_out : M t (option Element * string) :=
  o <- gets out ;;
  match o with
  | None => mraise TypeError
  | Some c =>
      modify count_exec ;;;
      tr <- gets tree ;;
      r <- lift_result (exec c tr) ;;
      setTree (fst r) ;;;
      mret r
  end.

Definition runAction : M t string :=
  k <- gets key ;;
  hit <- gets (fun e => Cache.contains k (execCache e)) ;;
  (if negb hit then compile_and_add
   else
     o <- gets (fun e => Cache.retrieve k (execCache e)) ;;
     modify (set_out o)) ;;;
  r <- exec_out ;;
  mret (snd r).

(** [runSource]: on a hit the code reads the name [__execCache], which
    is no attribute of [self] and no global. *)
Definition runSource : M t (option Element) :=
  k <- gets key ;;
  hit <- gets (fun e => Cache.contains k (execCache e)) ;;
  (if negb hit then compile_and_add else mraise NameError) ;;;
  r <- exec_out ;;
  mret (fst r).

(** The calls by which the interpreter runs the text of a custom action:
  [setCode] in [parseAction], then [setTree] and [runAction] in
  [parseGetNode]. *)
Definition run_text (c : option string) (tr : option Element) : M t string :=
setCode c ;;; setTree tr ;;; runAction.

(** The identities not yet given to a hash object are no keys of the
  cache. *)
Definition wf (e : t) : Prop :=
forall i, (fresh e <= i)%nat -> Cache.cache (execCache e) !! i = None.
End Executor.
End Executor.

(** ** conglomerator.py *)
Module FileInput.
Section FileInput.
Context `{Env}.

Record t : Type := { filelist : list string; doc : option Element }.

Definition new : t := {| filelist := []; doc := None |}.

Definition _getFilesRecursive (path : string) : M t unit :=
  modify (fun f => {| filelist := filelist f ++ walk_xml path; doc := doc f |}).

Definition _getFiles (path : string) : M t unit :=
  modify (fun f => {| filelist := glob_xml path; doc := doc f |}).

(** [self.doc.append(tree)] *)
Definition doc_append (tr : Element) : M t unit :=
  modify (fun f => {| filelist := filelist f;
                      doc := option_map (fun d => append_child d tr) (doc f) |}).

Fixpoint read_all (files : list string) : M t unit :=
  match files with
  | [] => mret tt
  | filename :: rest =>
      tr <- lift_result (read_xml (Some filename)) ;;
      doc_append tr ;;;
      read_all rest
  end.

Definition getDocObj (path rootname : option string) (recursive url : bool)
    : M t (option Element) :=
  modify (fun f => {| filelist := filelist f;
                      doc := Some (new_Element rootname) |}) ;;;
  (if negb url then
     (match path with
      | None => mraise TypeError
      | Some p => if recursive then _getFilesRecursive p else _getFiles p
      end) ;;;
     fl <- gets filelist ;;
     read_all fl
   else
     tr <- lift_result (read_xml path) ;;
     doc_append tr) ;;;
  gets doc.
End FileInput.
End FileInput.

(** ** modelparser.py

    The module reads [_debug] from the environment; the embedding takes
    its default, [0], so the [print] statements it guards are left out.
    Standard output is not part of the state. *)

Definition nl : string := String "010"%char EmptyString.
Definition dquote : string := String "034"%char EmptyString.

(** The mutable objects interpreters share: [store] holds the Python
    lists of sources, addressed by position (a reference to a list is its
    index); [files] are the texts written to output paths, latest first. *)
Record World : Type := {
  store : list (list (option Element));
  files : list (string * string)
}.

Module ModelParser.
Section ModelParser.
Context `{Env}.

Definition modelTAG : string := "{xdra}model".
Definition sourceTAG : string := "{xdra}source".
Definition queryTAG : string := "{xdra}query".
Definition actionTAG : string := "{xdra}action".
Definition getnodeTAG : string := "{xdra}getnode".
Definition getcontentTAG : string := "{xdra}getcontent".
Definition literalTAG : string := "{xdra}literal".

(** The attributes of an interpreter; [globalsources] and
    [localsources] are references into the store. *)
Record t : Type := {
  tabSize : string;
  globalsources : nat;
  localsources : nat;
  runner : Executor.t;
  conglomerator : FileInput.t;
  querypath : option string;
  level : nat;
  atype : option string;
  skey : option string
}.

Record State : Type := { self : t; world : World }.

Definition on_self {A} (m : M t A) : M State A :=
  fun st => match m (self st) with
            | (r, p) => (r, {| self := p; world := world st |})
            end.
Definition on_world {A} (m : M World A) : M State A :=
  fun st => match m (world st) with
            | (r, w) => (r, {| self := self st; world := w |})
            end.

Definition set_sources (g l : nat) (p : t) : t :=
  {| tabSize := tabSize p; globalsources := g; localsources := l;
     runner := runner p; conglomerator := conglomerator p;
     querypath := querypath p; level := level p;
     atype := atype p; skey := skey p |}.
Definition set_localsources (l : nat) (p : t) : t :=
  set_sources (globalsources p) l p.
Definition set_runner (r : Executor.t) (p : t) : t :=
  {| tabSize := tabSize p; globalsources := globalsources p;
     localsources := localsources p;
     runner := r; conglomerator := conglomerator p;
     querypath := querypath p; level := level p;
     atype := atype p; skey := skey p |}.
Definition set_conglomerator (c : FileInput.t) (p : t) : t :=
  {| tabSize := tabSize p; globalsources := globalsources p;
     localsources := localsources p;
     runner := runner p; conglomerator := c;
     querypath := querypath p; level := level p;
     atype := atype p; skey := skey p |}.
Definition set_querypath (q : option string) (p : t) : t :=
  {| tabSize := tabSize p; globalsources := globalsources p;
     localsources := localsources p;
     runner := runner p; conglomerator := conglomerator p;
     querypath := q; level := level p;
     atype := atype p; skey := skey p |}.
Definition set_level (n : nat) (p : t) : t :=
  {| tabSize := tabSize p; globalsources := globalsources p;
     localsources := localsources p;
     runner := runner p; conglomerator := conglomerator p;
     querypath := querypath p; level := n;
     atype := atype p; skey := skey p |}.
Definition set_atype (a : option string) (p : t) : t :=
  {| tabSize := tabSize p; globalsources := globalsources p;
     localsources := localsources p;
     runner := runner p; conglomerator := conglomerator p;
     querypath := querypath p; level := level p;
     atype := a; skey := skey p |}.
Definition set_skey (k : option string) (p : t) : t :=
  {| tabSize := tabSize p; globalsources := globalsources p;
     localsources := localsources p;
     runner := runner p; conglomerator := conglomerator p;
     querypath := querypath p; level := level p;
     atype := atype p; skey := k |}.

Definition with_runner {A} (m : M Executor.t A) : M State A :=
  on_self (fun p => match m (runner p) with
                    | (r, e) => (r, set_runner e p)
                    end).
Definition with_conglomerator {A} (m : M FileInput.t A) : M State A :=
  on_self (fun p => match m (conglomerator p) with
                    | (r, c) => (r, set_conglomerator c p)
                    end).

(** [[]]: a new empty list in the store. *)
Definition new_list : M World nat :=
  fun w => (Ok (length (store w)),
            {| store := store w ++ [[]]; files := files w |}).

(** [lst.append(x)] on the list at [loc]. *)
Definition list_append (loc : nat) (x : option Element) : M World unit :=
  modify (fun w => {| store := alter (fun l => l ++ [x]) loc (store w);
                      files := files w |}).

(** The elements of the list at [loc]. *)
Definition list_read (loc : nat) (w : World) : list (option Element) :=
  default [] (store w !! loc).

Definition reset (keepsources : bool) : M State unit :=
  (if negb keepsources then
     g <- on_world new_list ;;
     l <- on_world new_list ;;
     on_self (modify (set_sources g l))
   else mret tt) ;;;
  on_self (modify (set_querypath (Some EmptyString))) ;;;
  on_self (modify (set_level 0)) ;;;
  on_self (modify (set_atype (Some EmptyString))) ;;;
  on_self (modify (set_skey (Some EmptyString))).

(** [ModelParser(globalsources, localsources)]: the attributes are set
    from the arguments and [self.reset()] is called. *)
Definition __init__ (globalsources localsources : nat) : M World t :=
  fun w =>
    let p := {| tabSize := "    ";
                globalsources := globalsources;
                localsources := localsources;
                runner := Executor.new;
                conglomerator := FileInput.new;
                querypath := None; level := 0;
                atype := None; skey := None |} in
    match reset false {| self := p; world := w |} with
    | (Ok _, st) => (Ok (self st), world st)
    | (Raise e, st) => (Raise e, world st)
    end.

(** A method call on another interpreter object [p]. *)
Definition on_parser {A} (p : t) (m : M State A) : M State (A * t) :=
  fun st =>
    match m {| self := p; world := world st |} with
    | (Ok a, st') => (Ok (a, self st'), {| self := self st; world := world st' |})
    | (Raise e, st') => (Raise e, {| self := self st; world := world st' |})
    end.

(** [if data: datalist.append(data)] *)
Definition emit (data : option string) : list string :=
  if truthy data then [or_empty data] else [].

(** [if data: datalist.append("\n")] and then [if data: datalist.append(data)] *)
Definition emit_nl (data : option string) : list string :=
  if truthy data then [nl; or_empty data] else [].

(** [if datalist: return "".join(datalist)  else: return None] *)
Definition joined (datalist : list string) : option string :=
  match datalist with
  | [] => None
  | _ => Some (join datalist)
  end.

(** A [for] loop whose body appends to [datalist]. *)
Fixpoint for_each {S A} (l : list A) (body : A -> M S (list string))
    : M S (list string) :=
  match l with
  | [] => mret []
  | x :: l' =>
      d <- body x ;;
      ds <- for_each l' body ;;
      mret (d ++ ds)
  end.

Definition parseGetContent (node : Element) (source : option Element)
    : result (option string) :=
  let path := attrib_get "path" (attrib node) in
  if negb (truthy path) then Ok None
  else
    match source with
    | None => Raise AttributeError
    | Some src => findtext (or_empty path) src
    end.

Definition parseLiteral (node : Element) : string :=
  join ((if truthy (text node) then [or_empty (text node)] else [])
        ++ map tostring (children node)).

(** [if source: lst.append(source)] *)
Definition append_if_true (loc : nat) (source : option Element) : M State unit :=
  match source with
  | Some s => if is_true s then on_world (list_append loc source) else mret tt
  | None => mret tt
  end.

Definition parseSource (node : Element) (local : bool) : M State unit :=
  let stype := attrib_get "type" (attrib node) in
  if str_is stype "files" then
    let path := attrib_get "path" (attrib node) in
    let rootname := attrib_get "name" (attrib node) in
    if negb (truthy path && truthy rootname) then mret tt
    else
      let recursive :=
        str_is (attrib_get "recursive" (attrib node)) "1"
        || str_is (attrib_get "recursive" (attrib node)) "yes" in
      source <- with_conglomerator
                  (FileInput.getDocObj path rootname recursive false) ;;
      g <- on_self (gets globalsources) ;;
      l <- on_self (gets localsources) ;;
      if negb local then append_if_true g source
      else append_if_true l source
  else if str_is stype "custom" then
    let sname := attrib_get "name" (attrib node) in
    with_runner (Executor.setName sname) ;;;
    with_runner (Executor.setCode (text node)) ;;;
    with_runner (Executor.setTree (Some (new_Element sname))) ;;;
    sroot <- with_runner Executor.runSource ;;
    g <- on_self (gets globalsources) ;;
    on_world (list_append g sroot)
  else if str_is stype "url" then
    let rootname := attrib_get "name" (attrib node) in
    let path := attrib_get "path" (attrib node) in
    source <- with_conglomerator
                (FileInput.getDocObj path rootname false true) ;;
    g <- on_self (gets globalsources) ;;
    l <- on_self (gets localsources) ;;
    if negb local then append_if_true g source
    else append_if_true l source
  else mret tt.

(** [for source in sources: itemlist.extend(source.findall(path))] *)
Fixpoint gather (path : option string) (sources : list (option Element))
    : result (list Element) :=
  match sources with
  | [] => Ok []
  | source :: rest =>
      found <~ match source with
               | None => Raise AttributeError
               | Some src => findall path src
               end ;;
      more <~ gather path rest ;;
      Ok (found ++ more)
  end.

Definition children_of (o : option Element) : list Element :=
  match o with
  | Some e => children e
  | None => []
  end.

(** The [if self.atype:] block of [parseGetNode]: what it appends to
    [datalist], and the item list after it. *)
Definition transform (itemlist : list Element)
    : M State (list string * list Element) :=
  a <- on_self (gets atype) ;;
  k <- on_self (gets skey) ;;
  if truthy a then
    if endswith (or_empty a) "sort" then
      if truthy k then
        if str_is a "reversesort" then
          sorted <- lift_result (Sort.sort itemlist (or_empty k) true) ;;
          mret ([], sorted)
        else if str_is a "sort" then
          sorted <- lift_result (Sort.sort itemlist (or_empty k) false) ;;
          mret ([], sorted)
        else mret ([], itemlist)
      else mret ([], itemlist)
    else if str_is a "custom" then
      let xdra_root :=
        fold_left append_child itemlist (new_Element (Some "root")) in
      with_runner (Executor.setTree (Some xdra_root)) ;;;
      outtext <- with_runner Executor.runAction ;;
      root <- with_runner (gets Executor.tree) ;;
      mret ([outtext], children_of root)
    else mret ([], itemlist)
  else mret ([], itemlist).

(** [self.level+=1] and [self.level-=1] *)
Definition level_up : M State unit :=
  on_self (modify (fun p => set_level (S (level p)) p)).
Definition level_down : M State unit :=
  on_self (modify (fun p => set_level (level p - 1) p)).

(** Reading a global name the module does not define. *)
Definition load_global (name : string) : M State nat := mraise NameError.

Definition write_file (path data : string) : M World unit :=
  modify (fun w => {| store := store w; files := (path, data) :: files w |}).

Definition sentinel : string :=
  "No output was generated using the current model.".

(** The query path: the [path] attribute, without one slash at its end. *)
Definition strip_slash (qp : option string) : option string :=
  if truthy qp then
    if endswith (or_empty qp) "/" then Some (drop_last (or_empty qp))
    else qp
  else qp.

(** The five handlers that call one another. *)
Inductive call : Type :=
| XML (node : Element) (item : option Element)
| Query (node : Element)
| Action (node : Element)
| GetNode (node : Element)
| Model (doc : Element).

Section Handlers.
(** The handlers one call deeper. *)
Variable rec : call -> M State (option string).

(** [parser=ModelParser(self.globalsources,self.localsources)] and
    [data=parser.parseModel(doc)] *)
Definition child_parseModel (doc : Element) : M State (option string * t) :=
  g <- on_self (gets globalsources) ;;
  l <- on_self (gets localsources) ;;
  parser <- on_world (__init__ g l) ;;
  on_parser parser (rec (Model doc)).

Definition parseXML_child (item : option Element) (child : Element)
    : M State (list string) :=
  if tag_is child sourceTAG then
    parseSource child false ;;; mret []
  else if tag_is child queryTAG then
    data <- rec (Query child) ;; mret (emit data)
  else if tag_is child literalTAG then
    mret (emit (Some (parseLiteral child)))
  else if tag_is child actionTAG then
    data <- rec (Action child) ;; mret (emit data)
  else if tag_is child getnodeTAG then
    data <- rec (GetNode child) ;; mret (emit_nl data)
  else if tag_is child getcontentTAG then
    data <- lift_result (parseGetContent child item) ;; mret (emit_nl data)
  else if tag_is child modelTAG then
    let path := attrib_get "path" (attrib child) in
    if truthy path then
      try_except
        (cmodel <- lift_result (parse (or_empty path)) ;;
         r <- child_parseModel cmodel ;;
         on_parser (snd r) (reset false) ;;;
         mret (emit_nl (fst r)))
        (mret [])
    else
      match children child with
      | [] => mret []
      | _ =>
          try_except
            (r <- child_parseModel child ;;
             on_parser (snd r) (reset false) ;;;
             mret (emit_nl (fst r)))
            (mret [])
      end
  else
    data <- rec (XML child item) ;; mret (emit data).

(** The attributes are written in [keys()] order. *)
Definition open_tag (lv : nat) (ts : string) (node : Element) : list string :=
  (if (1 <? lv)%nat then [nl] else [])
  ++ repeat ts (lv - 1)
  ++ ["<" +:+ tag node]
  ++ map (fun kv => " " +:+ fst kv +:+ "=" +:+ dquote +:+ snd kv +:+ dquote)
         (attrib node).

Definition close_tag (lv : nat) (ts : string) (node : Element) : list string :=
  [nl] ++ repeat ts (lv - 1) ++ ["</" +:+ tag node +:+ ">"].

Definition parseXML_body (node : Element) (item : option Element)
    : M State (option string) :=
  lv <- on_self (gets level) ;;
  ts <- on_self (gets tabSize) ;;
  match children node with
  | [] => mret (Some (join (open_tag lv ts node ++ [" />"])))
  | cs =>
      body <- for_each cs (parseXML_child item) ;;
      lv' <- on_self (gets level) ;;
      ts' <- on_self (gets tabSize) ;;
      mret (Some (join (open_tag lv ts node ++ [">"] ++ body
                        ++ close_tag lv' ts' node)))
  end.

Definition parseGetNode_child (item child : Element) : M State (list string) :=
  if tag_is child getcontentTAG then
    if is_true item then
      data <- lift_result (parseGetContent child (Some item)) ;;
      mret (emit data)
    else mret []
  else if tag_is child literalTAG then
    if is_true item then mret (emit (Some (parseLiteral child)))
    else mret []
  else
    if is_true item then
      level_up ;;;
      data <- rec (XML child (Some item)) ;;
      level_down ;;;
      mret (emit data)
    else mret [].

Definition parseGetNode_body (node : Element) : M State (option string) :=
  let path := attrib_get "path" (attrib node) in
  qp <- on_self (gets querypath) ;;
  let path := if negb (truthy path) then qp else path in
  g <- on_self (gets globalsources) ;;
  sources <- on_world (gets (list_read g)) ;;
  itemlist <- lift_result (gather path sources) ;;
  tr <- transform itemlist ;;
  d <- match children node with
       | [] =>
           mret (flat_map
                   (fun item => if is_true item then [tostring item] else [])
                   (snd tr))
       | cs =>
           for_each (snd tr) (fun item => for_each cs (parseGetNode_child item))
       end ;;
  mret (joined (fst tr ++ d)).

Definition parseAction_child (child : Element) : M State (list string) :=
  if tag_is child getnodeTAG then
    data <- rec (GetNode child) ;; mret (emit data)
  else if tag_is child literalTAG then
    mret (emit (Some (parseLiteral child)))
  else
    data <- rec (XML child None) ;; mret (emit data).

Definition parseAction_body (node : Element) : M State (option string) :=
  on_self (modify (set_atype (attrib_get "type" (attrib node)))) ;;;
  on_self (modify (set_skey (attrib_get "key" (attrib node)))) ;;;
  a <- on_self (gets atype) ;;
  (if str_is a "custom" then
     with_runner (Executor.setName (attrib_get "name" (attrib node))) ;;;
     with_runner (Executor.setCode (text node))
   else mret tt) ;;;
  datalist <- for_each (children node) parseAction_child ;;
  on_self (modify (set_atype (Some EmptyString))) ;;;
  on_self (modify (set_skey (Some EmptyString))) ;;;
  mret (joined datalist).

Definition parseQuery_child (child : Element) : M State (list string) :=
  if tag_is child actionTAG then
    data <- rec (Action child) ;; mret (emit data)
  else if tag_is child sourceTAG then
    (* localsources.append(self.parseSource(child, local=True)) *)
    lst <- load_global "localsources" ;;
    parseSource child true ;;;
    on_world (list_append lst None) ;;;
    mret []
  else if tag_is child literalTAG then
    mret (emit (Some (parseLiteral child)))
  else
    level_up ;;;
    data <- rec (XML child None) ;;
    level_down ;;;
    mret (emit data).

Definition parseQuery_body (node : Element) : M State (option string) :=
  on_self (modify (set_querypath
                     (strip_slash (attrib_get "path" (attrib node))))) ;;;
  l <- on_world new_list ;;
  on_self (modify (set_localsources l)) ;;;
  datalist <- for_each (children node) parseQuery_child ;;
  mret (joined datalist).

Definition parseModel_child (child : Element) : M State (list string) :=
  if tag_is child sourceTAG then
    parseSource child false ;;; mret []
  else if tag_is child queryTAG then
    data <- rec (Query child) ;; mret (emit data)
  else if tag_is child literalTAG then
    mret (emit (Some (parseLiteral child)))
  else if tag_is child modelTAG then
    let path := attrib_get "path" (attrib child) in
    if truthy path then
      try_except
        (cmodel <- lift_result (parse (or_empty path)) ;;
         r <- child_parseModel cmodel ;;
         mret (emit (fst r)))
        (mret [])
    else
      match children child with
      | [] =>
          try_except
            (r <- child_parseModel child ;;
             mret (emit (fst r)))
            (mret [])
      | _ => mret []
      end
  else
    level_up ;;;
    data <- rec (XML child None) ;;
    level_down ;;;
    mret (emit data).

Definition parseModel_body (doc : Element) : M State (option string) :=
  if negb (tag_is doc modelTAG) then mret None
  else
    output <- for_each (children doc) parseModel_child ;;
    let output :=
      output ++ (if truthy (tail doc) then [or_empty (tail doc)] else []) in
    let data :=
      match output with
      | [] => sentinel
      | _ => join output
      end in
    let file := attrib_get "output" (attrib doc) in
    (if truthy file then on_world (write_file (or_empty file) data)
     else mret tt) ;;;
    mret (Some data).
End Handlers.

(** The handlers, [depth] calls below Python's recursion limit: at the
    limit a call raises [RuntimeError]. *)
Fixpoint run (depth : nat) (c : call) : M State (option string) :=
  match depth with
  | 0 => mraise RuntimeError
  | S d =>
      match c with
      | XML node item => parseXML_body (run d) node item
      | Query node => parseQuery_body (run d) node
      | Action node => parseAction_body (run d) node
      | GetNode node => parseGetNode_body (run d) node
      | Model doc => parseModel_body (run d) doc
      end
  end.

Definition parseXML (depth : nat) (node : Element) (item : option Element) :=
  run depth (XML node item).
Definition parseQuery (depth : nat) (node : Element) := run depth (Query node).
Definition parseAction (depth : nat) (node : Element) := run depth (Action node).
Definition parseGetNode (depth : nat) (node : Element) := run depth (GetNode node).
Definition parseModel (depth : nat) (doc : Element) := run depth (Model doc).
End ModelParser.
End ModelParser.

(** ** An environment to run the interpreter in *)

Module ETree.

(** [s.split(sep)] *)
Fixpoint split_on (sep : ascii) (s : string) : list string :=
  match s with
  | EmptyString => [EmptyString]
  | String c s' =>
      if Ascii.eqb c sep then EmptyString :: split_on sep s'
      else
        match split_on sep s' with
        | [] => [String c EmptyString]
        | h :: rest => String c h :: rest
        end
  end.

(** The element and everything below it, in document order. *)
Fixpoint iter (e : Element) : list Element :=
  match e with
  | Elem _ _ _ _ cs => e :: List.flat_map iter cs
  end.

Definition step_matches (step : string) (e : Element) : bool :=
  String.eqb step "*" || tag_is e step.

(** The steps of a path, applied to a node set: [.] stays, an empty step
    (between the two slashes of [//]) searches below the nodes for the
    step after it, any other step selects among the children. *)
Fixpoint select (steps : list string) (nodeset : list Element) : list Element :=
  match steps with
  | [] => nodeset
  | step :: rest =>
      if String.eqb step "." then select rest nodeset
      else if String.eqb step EmptyString then
        match rest with
        | [] => []
        | step' :: rest' =>
            select rest'
              (List.flat_map
                 (fun n => List.filter (step_matches step')
                             (List.flat_map iter (children n)))
                 nodeset)
        end
      else
        select rest
          (List.flat_map
             (fun n => List.filter (step_matches step) (children n))
             nodeset)
  end.

(** Modelled from the spec: the path matching of the [xmlio] module, which
    is not among the sources.  It supports [./tag] for direct children and
    [.//tag] for a descendant search, in document order; a path that is
    [None] is a [TypeError], one that starts with a slash a
    [SyntaxError]. *)
Definition findall (path : option string) (e : Element) : result (list Element) :=
  match path with
  | None => Raise TypeError
  | Some p =>
      if String.prefix "/" p then Raise SyntaxError
      else Ok (select (split_on "/"%char p) [e])
  end.

(** Modelled from the spec: the serialisation of the [xmlio] module, which
    is not among the sources: tag, attributes, text, children, end tag and
    tail, with no escaping. *)
Fixpoint tostring (e : Element) : string :=
  match e with
  | Elem tg atts tx tl cs =>
      let attrs :=
        join (map (fun kv => " " +:+ fst kv +:+ "=" +:+ dquote +:+ snd kv +:+ dquote) atts) in
      match tx, cs with
      | None, [] => "<" +:+ tg +:+ attrs +:+ " />" +:+ or_empty tl
      | _, _ =>
          "<" +:+ tg +:+ attrs +:+ ">" +:+ or_empty tx
          +:+ join (map tostring cs)
          +:+ "</" +:+ tg +:+ ">" +:+ or_empty tl
      end
  end.

(** An element object is true when it has children. *)
Definition is_true (e : Element) : bool :=
  match children e with
  | [] => false
  | _ => true
  end.

Definition new_Element (name : option string) : Element :=
  Elem (or_empty name) [] None None [].

Fixpoint lookup_file (fs : list (string * Element)) (path : string)
    : result Element :=
  match fs with
  | [] => Raise IOError
  | (p, e) :: fs' => if String.eqb p path then Ok e else lookup_file fs' path
  end.

Definition in_dir (dir : string) (recursive : bool) (file : string) : bool :=
  let d := dir +:+ "/" in
  String.prefix d file
  && endswith file ".xml"
  && (recursive
      || match split_on "/"%char (substring (String.length d) (String.length file) file) with
         | [_] => true
         | _ => false
         end).

(** A file system [fs] of parsed documents; a script compiles to itself
    and leaves its tree and output text as they are. *)
Definition env (fs : list (string * Element)) : Env :=
  Build_Env
    findall tostring is_true (lookup_file fs) new_Element
    string (fun c => Ok c) (fun _ tr => Ok (tr, EmptyString))
    (fun dir => List.filter (in_dir dir false) (map fst fs))
    (fun dir => List.filter (in_dir dir true) (map fst fs))
    (fun src =>
       match src with
       | Some p => lookup_file fs p
       | None => Raise TypeError
       end).
End ETree.

(** ** Inputs of the examples *)

Module Example.
Import ModelParser.

Definition leaf (tg tx : string) : Element := Elem tg [] (Some tx) None [].

Definition post (n : string) : Element :=
  Elem "post" [] None None
    [leaf "title" ("Title" +:+ n); leaf "content" ("Post " +:+ n)].

(** A record without the [title] child. *)
Definition untitled : Element :=
  Elem "post" [] None None [leaf "content" "Post 0"].

Definition feed : Element := Elem "feed" [] None None [post "1"; post "2"].

(** The one document that can be loaded, and the environment over it. *)
Definition fs : list (string * Element) := [("feed.xml", feed)].
Definition env : Env := ETree.env fs.

Definition getcontent (path : string) : Element :=
  Elem getcontentTAG [("path", path)] None None [].

Definition literal (tx : string) : Element :=
  Elem literalTAG [] (Some tx) None [].

(** [<xdra:source type="url" name="blog" path="feed.xml" />] *)
Definition source_url : Element :=
  Elem sourceTAG [("type", "url"); ("name", "blog"); ("path", "feed.xml")]
    None None [].

(** A query for the titles of all posts. *)
Definition query_titles : Element :=
  Elem queryTAG [("path", ".//post")] None None
    [Elem actionTAG [] None None
       [Elem getnodeTAG [] None None [getcontent "./title"]]].

(** The source is declared by the model itself. *)
Definition flat_model : Element :=
  Elem modelTAG [] None None [source_url; query_titles].

(** The source is declared by a nested model, before the query. *)
Definition nested_model : Element :=
  Elem modelTAG [] None None
    [Elem "div" [] None None [Elem modelTAG [] None None [source_url]];
     query_titles].

(** A query with a source child and a literal after it. *)
Definition query_with_source : Element :=
  Elem queryTAG [("path", ".//post")] None None [source_url; literal "after"].

(** An action with a sort key and a [getnode] child. *)
Definition sort_action : Element :=
  Elem actionTAG [("type", "sort"); ("key", "title")] None None
    [Elem getnodeTAG [("path", ".//post")] None None []].



(** The lists the two default arguments of [__init__] are bound to. *)
Definition world0 : World := {| store := [[]; []]; files := [] |}.

(** The state after [ModelParser()]. *)
Definition start : State :=
  {| self := {| tabSize := "    "; globalsources := 2; localsources := 3;
                runner := @Executor.new env;
                conglomerator := FileInput.new;
                querypath := Some EmptyString; level := 0;
                atype := Some EmptyString; skey := Some EmptyString |};
     world := {| store := [[]; []; []; []]; files := [] |} |}.

(** The state after [ModelParser()] and one source from [feed.xml]. *)
Definition loaded : State :=
  snd (@parseSource env source_url false start).

Definition cr : string := String "013"%char EmptyString.

(** One script, with the line ends of two platforms. *)
Definition script_lf : string := "x=1" +:+ nl +:+ "y=2".
Definition script_crlf : string := "x=1" +:+ cr +:+ nl +:+ "y=2".

(** Records whose titles differ in case. *)
Definition titled (tx : string) : Element :=
  Elem "post" [] None None [leaf "title" tx].
Definition records : list Element := [titled "b"; titled "C"; titled "a"].
End Example.

(** ** Further inputs *)

Module Inputs.
Import ModelParser Example.

(** Two directories with one document each. *)
Definition fs2 : list (string * Element) :=
  [("a/1.xml", post "1"); ("b/2.xml", post "2")].
Definition env2 : Env := ETree.env fs2.

(** An environment in which a text that starts with a closing bracket
    does not compile. *)
Definition picky : Env :=
  Build_Env
    ETree.findall ETree.tostring ETree.is_true (ETree.lookup_file fs)
    ETree.new_Element
    string
    (fun c => if String.prefix ")" c then Raise SyntaxError else Ok c)
    (fun _ tr => Ok (tr, EmptyString))
    (fun dir => []) (fun dir => [])
    (fun src => Raise IOError).

(** Records of which two have the same key without case. *)
Definition tied : list Element := [titled "b"; titled "B"; titled "a"].

(** A [files] source without a path. *)
Definition source_without_path : Element :=
  Elem sourceTAG [("type", "files"); ("name", "blog")] None None [].

(** The fresh interpreter inside a query for the posts. *)
Definition in_query : State :=
  {| self := set_querypath (Some ".//post") (self loaded);
     world := world loaded |}.

(** A model that names a file that does not exist, between two
    literals. *)
Definition missing_model : Element :=
  Elem modelTAG [("path", "missing.xml")] None None [].

(** A model that writes its output. *)
Definition writing_model : Element :=
  Elem modelTAG [("output", "out.txt")] None None [literal "hi"].
End Inputs.

(** ** Orders and observations used in the statements *)

(** [x]'s key text is not above [y]'s, compared without case. *)
Definition key_le `{Env} (K : string) (x y : Element) : Prop :=
  exists a b,
    findtext (".//" +:+ K) x = Ok (Some a)
    /\ findtext (".//" +:+ K) y = Ok (Some b)
    /\ String.compare (lower a) (lower b) <> Gt.

(** [r] has exactly one descendant matching [K], and it has text. *)
Definition one_key `{Env} (K : string) (r : Element) : Prop :=
  exists m t, findall (Some (".//" +:+ K)) r = Ok [m] /\ text m = Some t.

(** The lower-cased key of a record, empty when the lookup gives none. *)
Definition key_of `{Env} (K : string) (r : Element) : string :=
  match Sort.sort_key K r with
  | Ok s => s
  | Raise _ => EmptyString
  end.

(** The two lists of the interpreter lie at or above position [n] of a
    store that has at least [n] lists. *)
Definition above `{Env} (n : nat) (st : ModelParser.State) : Prop :=
  (n <= ModelParser.globalsources (ModelParser.self st))%nat
  /\ (n <= ModelParser.localsources (ModelParser.self st))%nat
  /\ (n <= length (store (ModelParser.world st)))%nat.

(** [w'] has the first [n] lists of [w], element for element. *)
Definition same_below (n : nat) (w w' : World) : Prop :=
  take n (store w') = take n (store w).

(** Run by an interpreter whose lists lie above [n], [m] leaves such an
    interpreter and the first [n] lists of the store as they were. *)
Definition frames `{Env} {A} (n : nat) (m : M ModelParser.State A) : Prop :=
  forall st r st',
    above n st -> m st = (r, st') ->
    above n st' /\ same_below n (ModelParser.world st) (ModelParser.world st').

(** The key of the executor is a hash object that has been allocated, and
    no identity still to come is a key of the cache. *)
Definition executor_inv `{Env} (e : Executor.t) : Prop :=
  Executor.wf e
  /\ forall k, Executor.key e = Some k -> (md5_id k < Executor.fresh e)%nat.

(** The text has no carriage return. *)
Fixpoint no_cr (s : string) : bool :=
  match s with
  | EmptyString => true
  | String c s' => negb (Ascii.eqb c "013"%char) && no_cr s'
  end.

(** The documents of a list of files, read in order; the first file that
    cannot be read gives its exception. *)
Fixpoint read_files `{Env} (files : list string) : result (list Element) :=
  match files with
  | [] => Ok []
  | file :: rest =>
      tr <~ read_xml (Some file) ;;
      trs <~ read_files rest ;;
      Ok (tr :: trs)
  end.

(** [d] with [trees] appended to its children. *)
Definition add_children (d : Element) (trees : list Element) : Element :=
  Elem (tag d) (attrib d) (text d) (tail d) (children d ++ trees).

(** The source declarations [parseSource] passes over: a [files] source
    without a path or without a name, and a source whose type is none of
    [files], [custom] and [url]. *)
Definition passed_over (node : Element) : bool :=
  let stype := attrib_get "type" (attrib node) in
  if str_is stype "files" then
    negb (truthy (attrib_get "path" (attrib node))
          && truthy (attrib_get "name" (attrib node)))
  else negb (str_is stype "custom" || str_is stype "url").

(** Every list of [w] is a list of [w'], at the same position and with
    the same elements in front. *)
Definition grows (w w' : World) : Prop :=
  forall i l, store w !! i = Some l ->
    exists more, store w' !! i = Some (l ++ more).

(** However [m] ends, the lists of the store have only grown and the
    interpreter still refers to the same global list. *)
Definition steady `{Env} {A} (m : M ModelParser.State A) : Prop :=
  forall st r st', m st = (r, st') ->
    grows (ModelParser.world st) (ModelParser.world st')
    /\ ModelParser.globalsources (ModelParser.self st')
       = ModelParser.globalsources (ModelParser.self st).

(** However [m] ends, the nesting level is what it was. *)
Definition keeps_level `{Env} {A} (m : M ModelParser.State A) : Prop :=
  forall st r st', m st = (r, st') ->
    ModelParser.level (ModelParser.self st')
    = ModelParser.level (ModelParser.self st).

(** When [m] returns, the nesting level is what it was. *)
Definition restores_level `{Env} {A} (m : M ModelParser.State A) : Prop :=
  forall st a st', m st = (Ok a, st') ->
    ModelParser.level (ModelParser.self st')
    = ModelParser.level (ModelParser.self st).

(** On a list [l]: comparing two records that have the key gives an
    order, comparing with a record that lacks it raises. *)
Definition cmp_by_key (cmp : Element -> Element -> result comparison)
    (has : Element -> bool) (l : list Element) : Prop :=
  forall x y, In x l -> In y l ->
    (has x = true -> has y = true -> exists c, cmp x y = Ok c)
    /\ (has x = false \/ has y = false -> cmp x y = Raise AttributeError).

Definition nonempty (s : string) : Prop := s <> EmptyString.

(** * Properties *)

(** ** Strings *)

Lemma compare_le_trans (a b c : string) :
  String.compare a b <> Gt -> String.compare b c <> Gt ->
  String.compare a c <> Gt.
Proof.
  intros Hab Hbc.
  destruct (String.compare a b) eqn:Eab; [| |congruence].
  - apply String.compare_eq_iff in Eab. subst a. exact Hbc.
  - destruct (String.compare b c) eqn:Ebc; [| |congruence].
    + apply String.compare_eq_iff in Ebc. subst c. rewrite Eab. discriminate.
    + assert (Hac : String.compare a c = Lt).
      { apply OrderedTypeEx.String_as_OT.cmp_lt.
        eapply OrderedTypeEx.String_as_OT.lt_trans;
          apply OrderedTypeEx.String_as_OT.cmp_lt; eassumption. }
      rewrite Hac. discriminate.
Qed.

Lemma compare_gt_flip (a b : string) :
  String.compare a b = Gt -> String.compare b a <> Gt.
Proof.
  intros Hab. rewrite String.compare_antisym, Hab. discriminate.
Qed.

(** ** The sorter *)

Section SortFacts.
Variable cmp : Element -> Element -> result comparison.
Variable f : Element -> Element -> comparison.

(** The order the comparison function sorts by. *)
Let le (x y : Element) : Prop := f x y <> Gt.

Hypothesis f_total : forall x y, f x y = Gt -> le y x.
Hypothesis f_trans : forall x y z, le x y -> le y z -> le x z.

Lemma insert_by_sorted (x : Element) (l : list Element) :
  (forall y, In y l -> cmp x y = Ok (f x y)) ->
  StronglySorted le l ->
  exists l', Sort.insert_by cmp x l = Ok l'
             /\ Permutation (x :: l) l'
             /\ StronglySorted le l'.
Proof.
  induction l as [|y l IH]; intros Hc Hs; simpl.
  - exists [x]. repeat split; auto. repeat constructor.
  - rewrite (Hc y (or_introl eq_refl)). simpl.
    inversion Hs as [|? ? Hs' Hall]; subst.
    destruct (f x y) eqn:Exy.
    + exists (x :: y :: l). repeat split; auto.
      constructor; [exact Hs|]. constructor; [unfold le; congruence|].
      eapply List.Forall_impl; [|exact Hall]. intros z Hz.
      apply f_trans with y; [unfold le; congruence|exact Hz].
    + exists (x :: y :: l). repeat split; auto.
      constructor; [exact Hs|]. constructor; [unfold le; congruence|].
      eapply List.Forall_impl; [|exact Hall]. intros z Hz.
      apply f_trans with y; [unfold le; congruence|exact Hz].
    + destruct IH as (l' & El & Pl & Sl).
      { intros z Hz. apply Hc. right. exact Hz. }
      { exact Hs'. }
      rewrite El. simpl. exists (y :: l'). repeat split.
      * rewrite perm_swap. constructor. exact Pl.
      * constructor; [exact Sl|].
        eapply Permutation_Forall; [exact Pl|].
        constructor; [apply f_total; exact Exy|exact Hall].
Qed.

Lemma list_sort_sorted (l : list Element) :
  (forall x y, In x l -> In y l -> cmp x y = Ok (f x y)) ->
  exists l', Sort.list_sort cmp l = Ok l'
             /\ Permutation l l'
             /\ StronglySorted le l'.
Proof.
  induction l as [|x l IH]; intros Hc; simpl.
  - exists []. repeat split; auto. constructor.
  - destruct IH as (s & Es & Ps & Ss).
    { intros a b Ha Hb. apply Hc; right; assumption. }
    rewrite Es. simpl.
    destruct (insert_by_sorted x s) as (l' & El & Pl & Sl).
    { intros y Hy. apply Hc; [left; reflexivity|].
      right. eapply Permutation_in; [symmetry; exact Ps|exact Hy]. }
    { exact Ss. }
    exists l'. repeat split; auto.
    etransitivity; [|exact Pl]. constructor. exact Ps.
Qed.
End SortFacts.

Lemma StronglySorted_weaken {A} (R R' : A -> A -> Prop) (l : list A) :
  (forall x y, In x l -> In y l -> R x y -> R' x y) ->
  StronglySorted R l -> StronglySorted R' l.
Proof.
  induction l as [|a l IH]; intros HR Hs; [constructor|].
  inversion Hs as [|? ? Hs' Hall]; subst. constructor.
  - apply IH; [|exact Hs']. intros x y Hx Hy. apply HR; right; assumption.
  - rewrite List.Forall_forall in *. intros y Hy.
    apply HR; [left; reflexivity|right; exact Hy|apply Hall; exact Hy].
Qed.

Section SortSpec.
Context `{Env}.

Lemma one_key_findtext (K : string) (r : Element) :
  one_key K r ->
  exists t, findtext (".//" +:+ K) r = Ok (Some t)
            /\ Sort.sort_key K r = Ok (lower t).
Proof.
  intros (m & t & Hf & Ht). exists t.
  unfold Sort.sort_key, findtext. rewrite Hf. simpl. rewrite Ht. simpl.
  split; reflexivity.
Qed.

Lemma cmp_asc_ok (K : string) (x y : Element) :
  one_key K x -> one_key K y ->
  Sort.cmp_asc K x y = Ok (String.compare (key_of K x) (key_of K y)).
Proof.
  intros Hx Hy.
  destruct (one_key_findtext K x Hx) as (a & _ & Ha).
  destruct (one_key_findtext K y Hy) as (b & _ & Hb).
  unfold Sort.cmp_asc, key_of. rewrite Ha, Hb. reflexivity.
Qed.

Lemma cmp_desc_ok (K : string) (x y : Element) :
  one_key K x -> one_key K y ->
  Sort.cmp_desc K x y = Ok (String.compare (key_of K y) (key_of K x)).
Proof.
  intros Hx Hy.
  destruct (one_key_findtext K x Hx) as (a & _ & Ha).
  destruct (one_key_findtext K y Hy) as (b & _ & Hb).
  unfold Sort.cmp_desc, key_of. rewrite Ha, Hb. reflexivity.
Qed.

Lemma key_le_of (K : string) (x y : Element) :
  one_key K x -> one_key K y ->
  String.compare (key_of K x) (key_of K y) <> Gt -> key_le K x y.
Proof.
  intros Hx Hy Hle.
  destruct (one_key_findtext K x Hx) as (a & Fa & Ha).
  destruct (one_key_findtext K y Hy) as (b & Fb & Hb).
  unfold key_of in Hle. rewrite Ha, Hb in Hle.
  exists a, b. auto.
Qed.

Lemma sort_short (R : list Element) (K : string) (reverse : bool) :
  (length R <= 1)%nat -> Sort.sort R K reverse = Ok R.
Proof.
  intros Hlen. unfold Sort.sort.
  destruct (Nat.ltb_spec 1 (length R)); [lia|reflexivity].
Qed.

Lemma sort_ascending (R : list Element) (K : string) :
  (forall r, In r R -> one_key K r) ->
  exists R', Sort.sort R K false = Ok R'
             /\ Permutation R R'
             /\ StronglySorted (key_le K) R'.
Proof.
  intros Hkeys. unfold Sort.sort.
  destruct (1 <? length R)%nat eqn:Elen.
  - destruct (list_sort_sorted (Sort.cmp_asc K)
                (fun x y => String.compare (key_of K x) (key_of K y)))
      with (l := R) as (R' & ER & PR & SR).
    + intros x y. apply compare_gt_flip.
    + intros x y z. apply compare_le_trans.
    + intros x y Hx Hy. apply cmp_asc_ok; auto.
    + exists R'. repeat split; auto.
      eapply StronglySorted_weaken; [|exact SR].
      intros x y Hx Hy. apply key_le_of; apply Hkeys;
        eapply Permutation_in; try (symmetry; exact PR); assumption.
  - exists R. repeat split; auto.
    apply Nat.ltb_ge in Elen.
    destruct R as [|a [|b R]]; simpl in Elen; try lia;
      repeat constructor.
Qed.

Lemma sort_descending (R : list Element) (K : string) :
  (forall r, In r R -> one_key K r) ->
  exists R', Sort.sort R K true = Ok R'
             /\ Permutation R R'
             /\ StronglySorted (fun x y => key_le K y x) R'.
Proof.
  intros Hkeys. unfold Sort.sort.
  destruct (1 <? length R)%nat eqn:Elen.
  - destruct (list_sort_sorted (Sort.cmp_desc K)
                (fun x y => String.compare (key_of K y) (key_of K x)))
      with (l := R) as (R' & ER & PR & SR).
    + intros x y. apply compare_gt_flip.
    + intros x y z Hxy Hyz. eapply compare_le_trans; eassumption.
    + intros x y Hx Hy. apply cmp_desc_ok; auto.
    + exists R'. repeat split; auto.
      eapply StronglySorted_weaken; [|exact SR].
      intros x y Hx Hy. apply key_le_of; apply Hkeys;
        eapply Permutation_in; try (symmetry; exact PR); assumption.
  - exists R. repeat split; auto.
    apply Nat.ltb_ge in Elen.
    destruct R as [|a [|b R]]; simpl in Elen; try lia;
      repeat constructor.
Qed.

(** C7.  When every record of [R] has exactly one descendant matching [K],
    with text: [sort(R, K, reverse=False)] returns the records of [R]
    reordered so that the key texts, compared without case, never
    decrease; [sort(R, K, reverse=True)] returns them so that they never
    increase; and a list of at most one record is returned as it is. *)
Theorem sort_orders_by_key (R : list Element) (K : string) :
  (forall r, In r R -> one_key K r) ->
  (exists R1, Sort.sort R K false = Ok R1
              /\ Permutation R R1
              /\ StronglySorted (key_le K) R1)
  /\ (exists R2, Sort.sort R K true = Ok R2
                 /\ Permutation R R2
                 /\ StronglySorted (fun x y => key_le K y x) R2)
  /\ ((length R <= 1)%nat ->
      Sort.sort R K false = Ok R /\ Sort.sort R K true = Ok R).
Proof.
  intros Hkeys. split; [|split].
  - apply sort_ascending. exact Hkeys.
  - apply sort_descending. exact Hkeys.
  - intros Hlen. split; apply sort_short; exact Hlen.
Qed.
End SortSpec.

(** ** The state monad *)

Lemma mbind_ok {S A B} (m : M S A) (k : A -> M S B) (s s' : S) (b : B) :
  mbind m k s = (Ok b, s') ->
  exists a s1, m s = (Ok a, s1) /\ k a s1 = (Ok b, s').
Proof.
  unfold mbind. destruct (m s) as [[a|e] s1]; intros Hk.
  - exists a, s1. split; [reflexivity|exact Hk].
  - discriminate.
Qed.

Ltac bind_inv H :=
  let a := fresh "a" in
  let s := fresh "s" in
  let Hm := fresh "Hm" in
  apply mbind_ok in H; destruct H as (a & s & Hm & H).

(** ** The interpreter *)

Section HandlerFacts.
Context `{Env}.
Import ModelParser.

Lemma tag_is_true (e : Element) (t : string) : tag e = t -> tag_is e t = true.
Proof. intros <-. apply String.eqb_refl. Qed.

Lemma tag_is_false (e : Element) (t : string) : tag e <> t -> tag_is e t = false.
Proof. intros Hne. apply String.eqb_neq. exact Hne. Qed.

(** C5.  A document whose root is not the [model] tag gives no result,
    and neither its children nor the interpreter state are touched; a
    document whose root is the [model] tag never gives that answer. *)
Theorem parseModel_invalid_root (d : nat) (doc : Element) (st : State) :
  (tag doc <> modelTAG -> parseModel (S d) doc st = (Ok None, st))
  /\ (tag doc = modelTAG -> fst (parseModel (S d) doc st) <> Ok None).
Proof.
  unfold parseModel. simpl. unfold parseModel_body. split.
  - intros Hne. rewrite (tag_is_false _ _ Hne). reflexivity.
  - intros Heq. rewrite (tag_is_true _ _ Heq). simpl.
    unfold mbind.
    destruct (for_each (children doc) (parseModel_child (run d)) st)
      as [[output|e] st1]; [|simpl; discriminate].
    destruct (truthy (attrib_get "output" (attrib doc)));
      simpl; discriminate.
Qed.

(** C6.  When [parseAction] returns, the action type and the sort key of
    the interpreter are both the empty string, with children or without,
    so a [getnode] evaluated afterwards applies no transform to its items;
    an action without children always returns. *)
Theorem parseAction_clears_transform (d : nat) (node : Element) (st : State) :
  (forall r st', parseAction d node st = (Ok r, st') ->
     atype (self st') = Some EmptyString /\ skey (self st') = Some EmptyString
     /\ forall itemlist, fst (transform itemlist st') = Ok ([], itemlist))
  /\ (children node = [] ->
      exists st', parseAction (S d) node st = (Ok None, st')
                  /\ atype (self st') = Some EmptyString
                  /\ skey (self st') = Some EmptyString).
Proof.
  split.
  - intros r st' Hrun. destruct d as [|d]; [discriminate|].
    unfold parseAction in Hrun. simpl in Hrun. unfold parseAction_body in Hrun.
    do 5 bind_inv Hrun.
    unfold mbind, on_self, modify, mret in Hrun. simpl in Hrun.
    injection Hrun as _ <-. simpl. repeat split; reflexivity.
  - intros Hnil. unfold parseAction. simpl. unfold parseAction_body.
    rewrite Hnil. simpl.
    unfold mbind at 1. simpl. unfold mbind at 1. simpl. unfold mbind at 1. simpl.
    destruct (str_is (attrib_get "type" (attrib node)) "custom").
    + unfold mbind at 1. unfold mbind at 1.
      unfold with_runner at 1. unfold on_self at 1.
      unfold Executor.setName at 1. unfold modify at 1.
      unfold with_runner at 1. unfold on_self at 1.
      cbn [self world runner set_runner].
      destruct (Executor.setCode (text node) _) as [[u|e] e1] eqn:Es.
      * eexists. split; [reflexivity|]. split; reflexivity.
      * unfold Executor.setCode in Es. destruct (truthy (text node)); discriminate.
    + eexists. split; [reflexivity|]. split; reflexivity.
Qed.

(** C8.  With a non-empty [path] attribute, [parseGetContent] gives the
    text of the first element of the record that matches the path, and
    nothing of its children; without a match, or without a path, it gives
    no output. *)
Theorem parseGetContent_text (node record : Element) :
  match attrib_get "path" (attrib node) with
  | Some (String c P) =>
      match findall (Some (String c P)) record with
      | Ok (m :: _) =>
          parseGetContent node (Some record) = Ok (Some (or_empty (text m)))
      | Ok [] => parseGetContent node (Some record) = Ok None
      | Raise e => parseGetContent node (Some record) = Raise e
      end
  | _ => parseGetContent node (Some record) = Ok None
  end.
Proof.
  unfold parseGetContent.
  destruct (attrib_get "path" (attrib node)) as [[|c P]|]; simpl; try reflexivity.
  unfold findtext.
  destruct (findall (Some (String c P)) record) as [[|m l]|e]; reflexivity.
Qed.

End HandlerFacts.

Section OutputFacts.
Context `{Env}.
Import ModelParser.



Lemma join_nonempty (l : list string) :
  l <> [] -> Forall nonempty l -> nonempty (join l).
Proof.
  intros Hl Hall. destruct l as [|x l]; [congruence|].
  inversion Hall as [|? ? Hx _]; subst.
  unfold join, nonempty in *. simpl. destruct x as [|c x]; [congruence|].
  destruct l; simpl; discriminate.
Qed.
End OutputFacts.



Section SentinelFacts.
Context `{Env}.
Import ModelParser.


End SentinelFacts.

Section SourceLists.
Context `{Env}.
Import ModelParser.

(** The interpreter a constructor call gives: whatever lists it is
    handed, [reset] binds both attributes to new empty lists; the query
    path, the level, the action type and the sort key start empty. *)
Lemma init_makes_fresh_lists (g l : nat) (w : World) :
  __init__ g l w
  = (Ok {| tabSize := "    ";
           globalsources := length (store w);
           localsources := length (store w ++ [[]]);
           runner := Executor.new;
           conglomerator := FileInput.new;
           querypath := Some EmptyString; level := 0;
           atype := Some EmptyString; skey := Some EmptyString |},
     {| store := (store w ++ [[]]) ++ [[]]; files := files w |}).
Proof. reflexivity. Qed.

(** C4, as the code has it.  A query whose first child is a [source]
    raises [NameError] where it reads the name [localsources]: the source
    is not registered, and no sibling after it is evaluated.  The state
    left is the one with the query path set and a new local list. *)
Theorem parseQuery_source_child_raises (d : nat) (tg : string)
    (attrs sattrs : list (string * string)) (tx tl stx stl : option string)
    (scs rest : list Element) (st : State) :
  parseQuery (S d)
    (Elem tg attrs tx tl (Elem sourceTAG sattrs stx stl scs :: rest)) st
  = (Raise NameError,
     {| self := set_localsources (length (store (world st)))
                  (set_querypath (strip_slash (attrib_get "path" attrs)) (self st));
        world := {| store := store (world st) ++ [[]];
                    files := files (world st) |} |}).
Proof. reflexivity. Qed.
End SourceLists.

(** ** The executor *)

Section ExecutorFacts.
Context `{Env}.
Import Executor.

(** The key [setCode] takes is a hash object over the text as it was
    handed in, line ends included, and the object is a new one. *)
Lemma setCode_key (c : ascii) (s : string) (e : t) :
  key (snd (setCode (Some (String c s)) e))
  = Some {| md5_id := fresh e; md5_text := String c s |}
  /\ code (snd (setCode (Some (String c s)) e))
     = Some (replace_crlf (String c s)).
Proof. split; reflexivity. Qed.

(** X28.  A text that is not empty and compiles is set once with
    [setCode]; the first [runAction] compiles it and stores the code
    object under the key, the second finds it there: one call of
    [compile], two of [exec] in all. *)
Theorem primed_script_compiles_once (c : string) (o : codeobj)
    (tr : option Element) (e : t) :
  c <> EmptyString ->
  compile (replace_crlf c) = Ok o ->
  wf e ->
  let e0 := snd ((setCode (Some c) ;;; setTree tr) e) in
  let e1 := snd (runAction e0) in
  let e2 := snd (runAction e1) in
  n_compile e1 = S (n_compile e) /\ n_exec e1 = S (n_exec e)
  /\ Cache.retrieve (key e0) (execCache e1) = Some o
  /\ n_compile e2 = S (n_compile e) /\ n_exec e2 = S (S (n_exec e))
  /\ out e2 = Some o.
Proof.
  intros Hc Hcomp Hwf. destruct c as [|a c]; [congruence|].
  assert (Hmiss : Cache.cache (execCache e) !! fresh e = None).
  { apply Hwf. lia. }
  cbv zeta.
  unfold runAction, compile_and_add, exec_out, with_cache, setTree, setCode,
    Cache.add, Cache.contains, Cache.retrieve, Cache.getkey,
    mbind, gets, modify, mret, mraise, lift_result.
  cbn -[replace_crlf lookup insert].
  rewrite Hmiss. cbn -[replace_crlf lookup insert].
  rewrite Hcomp. cbn -[replace_crlf lookup insert].
  destruct (exec o tr) as [[tr1 txt1]|x1];
    cbn -[replace_crlf lookup insert];
    rewrite lookup_insert_eq; cbn -[replace_crlf lookup insert];
    rewrite ?lookup_insert_eq;
    match goal with
    | |- context [exec o ?t] => destruct (exec o t) as [[tr2 txt2]|x2]
    end; cbn -[replace_crlf lookup insert]; rewrite ?lookup_insert_eq;
    repeat split; reflexivity.
Qed.

(** C3, as the code has it.  A text that is not empty and compiles is run
    twice, each time as the interpreter runs it: [setCode], [setTree],
    [runAction].  Both keys are hash objects over the same text, and the
    first run stores the code object under its key; the key of the second
    run is a new object, so it is in no entry of the cache, and the text
    is compiled again: two calls of [compile] and two of [exec] in all. *)
Theorem same_text_run_twice_compiles_twice (c : string) (o : codeobj)
    (tr1 tr2 : option Element) (e : t) :
  c <> EmptyString ->
  compile (replace_crlf c) = Ok o ->
  wf e ->
  let e1 := snd (run_text (Some c) tr1 e) in
  let e1' := snd (setCode (Some c) e1) in
  let e2 := snd (run_text (Some c) tr2 e1) in
  option_map md5_text (key e1) = Some c
  /\ option_map md5_text (key e1') = Some c
  /\ code e1' = code e1
  /\ Cache.retrieve (key e1) (execCache e1) = Some o
  /\ Cache.contains (key e1') (execCache e1') = false
  /\ n_compile e1 = S (n_compile e) /\ n_exec e1 = S (n_exec e)
  /\ n_compile e2 = S (S (n_compile e)) /\ n_exec e2 = S (S (n_exec e)).
Proof.
  intros Hc Hcomp Hwf. destruct c as [|a c]; [congruence|].
  assert (Hmiss : Cache.cache (execCache e) !! fresh e = None).
  { apply Hwf. lia. }
  assert (Hmiss2 : Cache.cache (execCache e) !! S (fresh e) = None).
  { apply Hwf. lia. }
  cbv zeta.
  unfold run_text, runAction, compile_and_add, exec_out, with_cache, setTree,
    setCode, Cache.add, Cache.contains, Cache.retrieve, Cache.getkey,
    mbind, gets, modify, mret, mraise, lift_result.
  cbn -[replace_crlf lookup insert].
  rewrite Hmiss. cbn -[replace_crlf lookup insert].
  rewrite Hcomp. cbn -[replace_crlf lookup insert].
  destruct (exec o tr1) as [[t1 txt1]|x1];
    cbn -[replace_crlf lookup insert];
    rewrite ?lookup_insert_eq;
    rewrite (lookup_insert_ne _ (fresh e) (S (fresh e))) by lia;
    rewrite Hmiss2; cbn -[replace_crlf lookup insert];
    rewrite Hcomp; cbn -[replace_crlf lookup insert];
    destruct (exec o tr2) as [[t2 txt2]|x2];
    cbn -[replace_crlf lookup insert];
    rewrite ?lookup_insert_eq;
    repeat split; reflexivity.
Qed.
End ExecutorFacts.

(** ** The source lists of nested interpreters *)

Section FrameFacts.
Context `{Env}.
Import ModelParser.
Variable n : nat.

Lemma frames_ret {A} (a : A) : frames n (mret a).
Proof. intros st r st' Ha Hr. injection Hr as _ <-. split; [exact Ha|reflexivity]. Qed.

Lemma frames_raise {A} (e : exn) : frames n (@mraise State A e).
Proof. intros st r st' Ha Hr. injection Hr as _ <-. split; [exact Ha|reflexivity]. Qed.

Lemma frames_lift {A} (x : result A) : frames n (@lift_result State A x).
Proof. intros st r st' Ha Hr. injection Hr as _ <-. split; [exact Ha|reflexivity]. Qed.

Lemma frames_bind {A B} (m : M State A) (k : A -> M State B) :
  frames n m -> (forall a, frames n (k a)) -> frames n (mbind m k).
Proof.
  intros Hm Hk st r st' Ha Hr. unfold mbind in Hr.
  destruct (m st) as [[a|e] s1] eqn:Em.
  - destruct (Hm _ _ _ Ha Em) as [Ha1 Hs1].
    destruct (Hk a _ _ _ Ha1 Hr) as [Ha2 Hs2].
    split; [exact Ha2|]. unfold same_below in *. congruence.
  - injection Hr as _ <-. exact (Hm _ _ _ Ha Em).
Qed.

Lemma frames_try {A} (m h : M State A) :
  frames n m -> frames n h -> frames n (try_except m h).
Proof.
  intros Hm Hh st r st' Ha Hr. unfold try_except in Hr.
  destruct (m st) as [[a|e] s1] eqn:Em.
  - injection Hr as _ <-. exact (Hm _ _ _ Ha Em).
  - destruct (Hm _ _ _ Ha Em) as [Ha1 Hs1].
    destruct (Hh _ _ _ Ha1 Hr) as [Ha2 Hs2].
    split; [exact Ha2|]. unfold same_below in *. congruence.
Qed.

Lemma frames_for_each {A} (l : list A) (body : A -> M State (list string)) :
  (forall x, frames n (body x)) -> frames n (for_each l body).
Proof.
  intros Hbody. induction l as [|x l IH]; simpl.
  - apply frames_ret.
  - apply frames_bind; [apply Hbody|]. intros d.
    apply frames_bind; [exact IH|]. intros ds. apply frames_ret.
Qed.

Lemma frames_gets {A} (f : t -> A) : frames n (on_self (gets f)).
Proof.
  intros [p w] r st' Ha Hr. injection Hr as _ <-. split; [exact Ha|reflexivity].
Qed.

Lemma frames_gets_world {A} (f : World -> A) : frames n (on_world (gets f)).
Proof.
  intros [p w] r st' Ha Hr. injection Hr as _ <-. split; [exact Ha|reflexivity].
Qed.

(** An update of the interpreter that keeps its two list references. *)
Lemma frames_modify (f : t -> t) :
  (forall p, globalsources (f p) = globalsources p
             /\ localsources (f p) = localsources p) ->
  frames n (on_self (modify f)).
Proof.
  intros Hf [p w] r st' (Hg & Hl & Hn) Hr. injection Hr as _ <-.
  destruct (Hf p) as [Eg El]. unfold above. simpl. rewrite Eg, El.
  repeat split; assumption.
Qed.

Lemma frames_with_runner {A} (m : M Executor.t A) : frames n (with_runner m).
Proof.
  intros [p w] r st' Ha Hr. unfold with_runner, on_self in Hr. simpl in Hr.
  destruct (m (runner p)) as [x e]. injection Hr as _ <-.
  split; [exact Ha|reflexivity].
Qed.

Lemma frames_with_conglomerator {A} (m : M FileInput.t A) :
  frames n (with_conglomerator m).
Proof.
  intros [p w] r st' Ha Hr. unfold with_conglomerator, on_self in Hr. simpl in Hr.
  destruct (m (conglomerator p)) as [x e]. injection Hr as _ <-.
  split; [exact Ha|reflexivity].
Qed.

Lemma frames_write_file (path data : string) :
  frames n (on_world (write_file path data)).
Proof.
  intros [p w] r st' Ha Hr. injection Hr as _ <-. split; [exact Ha|reflexivity].
Qed.

(** Appending to a list at or above [n]. *)
Lemma append_above (loc : nat) (x : option Element) (p : t) (w : World) :
  (n <= loc)%nat -> above n {| self := p; world := w |} ->
  forall r st',
    on_world (list_append loc x) {| self := p; world := w |} = (r, st') ->
    above n st' /\ same_below n w (world st').
Proof.
  intros Hloc (Hg & Hl & Hn) r st' Hr. injection Hr as _ <-.
  unfold above, same_below. simpl in *. rewrite length_alter.
  repeat split; try assumption. apply take_alter_ge. exact Hloc.
Qed.

Lemma frames_append_if_true (source : option Element) (p : t) (w : World)
    (loc : nat) :
  (n <= loc)%nat -> above n {| self := p; world := w |} ->
  forall r st',
    append_if_true loc source {| self := p; world := w |} = (r, st') ->
    above n st' /\ same_below n w (world st').
Proof.
  intros Hloc Ha r st' Hr. unfold append_if_true in Hr.
  destruct source as [s|].
  - destruct (is_true s).
    + eapply append_above; eassumption.
    + injection Hr as _ <-. split; [exact Ha|reflexivity].
  - injection Hr as _ <-. split; [exact Ha|reflexivity].
Qed.

(** The tail of [parseSource] for a loaded document. *)
Lemma frames_register (local : bool) (m : M FileInput.t (option Element)) :
  frames n
    (source <- with_conglomerator m ;;
     g <- on_self (gets globalsources) ;;
     l <- on_self (gets localsources) ;;
     if negb local then append_if_true g source else append_if_true l source).
Proof.
  intros [p w] r st' Ha Hr. unfold mbind at 1 in Hr.
  destruct (with_conglomerator m {| self := p; world := w |})
    as [[source|e] [p1 w1]] eqn:Em.
  - destruct (frames_with_conglomerator m _ _ _ Ha Em) as [Ha1 Hs1].
    simpl in Hs1. unfold mbind, on_self, gets in Hr. simpl in Hr.
    destruct Ha1 as (Hg & Hl & Hn). simpl in Hg, Hl.
    destruct local; simpl in Hr;
      eapply frames_append_if_true in Hr; try eassumption;
      try (repeat split; assumption);
      destruct Hr as [Ha2 Hs2]; (split; [exact Ha2|]);
      unfold same_below in *; simpl in *; congruence.
  - injection Hr as _ <-. exact (frames_with_conglomerator m _ _ _ Ha Em).
Qed.

Lemma frames_parseSource (node : Element) (local : bool) :
  frames n (parseSource node local).
Proof.
  unfold parseSource.
  destruct (str_is _ "files").
  - destruct (negb _); [apply frames_ret|apply frames_register].
  - destruct (str_is _ "custom").
    + repeat (apply frames_bind; [apply frames_with_runner|intros ?]).
      intros [p w] r st' Ha Hr. unfold mbind, on_self, gets in Hr. simpl in Hr.
      eapply append_above in Hr; [exact Hr| |exact Ha].
      destruct Ha as (Hg & _). exact Hg.
    + destruct (str_is _ "url"); [apply frames_register|apply frames_ret].
Qed.

(** [reset()] binds the interpreter to two new lists at the end of the
    store. *)
Lemma frames_reset (keepsources : bool) : frames n (reset keepsources).
Proof.
  intros [p w] r st' (Hg & Hl & Hn) Hr. simpl in *.
  destruct keepsources; injection Hr as _ <-;
    unfold above, same_below; simpl; rewrite ?length_app; simpl;
    repeat split; try lia.
  rewrite <- app_assoc. apply take_app_le. exact Hn.
Qed.

(** A method call on an interpreter whose lists lie above [n]. *)
Lemma on_parser_frames {A} (q : t) (m : M State A) (p : t) (w : World) :
  frames n m ->
  above n {| self := p; world := w |} ->
  above n {| self := q; world := w |} ->
  forall r st',
    on_parser q m {| self := p; world := w |} = (r, st') ->
    above n st' /\ same_below n w (world st')
    /\ forall a q', r = Ok (a, q') -> above n {| self := q'; world := world st' |}.
Proof.
  intros Hm (Hg & Hl & Hn) Hq r st' Hr. unfold on_parser in Hr. simpl in Hr.
  destruct (m {| self := q; world := w |}) as [[a|e] [q1 w1]] eqn:Em;
    destruct (Hm _ _ _ Hq Em) as [(Hg1 & Hl1 & Hn1) Hs1];
    injection Hr as <- <-; simpl in *;
    (split; [repeat split; assumption|]); (split; [exact Hs1|]).
  - intros a0 q' Heq. injection Heq as <- <-. repeat split; assumption.
  - intros a0 q' Heq. discriminate.
Qed.

Section Bodies.
Variable rec : call -> M State (option string).
Hypothesis rec_frames : forall c, frames n (rec c).

Lemma child_parseModel_frames (doc : Element) (p : t) (w : World) :
  above n {| self := p; world := w |} ->
  forall r st',
    child_parseModel rec doc {| self := p; world := w |} = (r, st') ->
    above n st' /\ same_below n w (world st')
    /\ forall a q', r = Ok (a, q') -> above n {| self := q'; world := world st' |}.
Proof.
  intros Ha r st' Hr.
  unfold child_parseModel in Hr.
  unfold mbind at 1 2 3 in Hr. unfold on_self at 1 2, gets in Hr.
  cbn [self world] in Hr.
  unfold on_world at 1 in Hr. cbn [self world] in Hr.
  rewrite init_makes_fresh_lists in Hr. cbn [self world] in Hr.
  set (q := {| tabSize := _ |}) in Hr.
  set (w1 := {| store := _ |}) in Hr.
  destruct Ha as (Hg & Hl & Hn). cbn [self world] in Hg, Hl, Hn.
  assert (Hw1 : same_below n w w1).
  { unfold same_below, w1. cbn [store]. rewrite <- app_assoc.
    apply take_app_le. exact Hn. }
  assert (Hp1 : above n {| self := p; world := w1 |}).
  { unfold above, w1. cbn. rewrite !length_app. cbn. repeat split; lia. }
  assert (Hq1 : above n {| self := q; world := w1 |}).
  { unfold above, w1, q. cbn. rewrite !length_app. cbn. repeat split; lia. }
  destruct (on_parser_frames q _ p w1 (rec_frames (Model doc)) Hp1 Hq1 _ _ Hr)
    as (Ha2 & Hs2 & Hq2).
  split; [exact Ha2|]. split; [|exact Hq2].
  unfold same_below in *. congruence.
Qed.

Lemma frames_child_emit (doc : Element) (k : option string -> list string) :
  frames n (r <- child_parseModel rec doc ;; mret (k (fst r))).
Proof.
  intros [p w] r st' Ha Hr. unfold mbind in Hr.
  destruct (child_parseModel rec doc {| self := p; world := w |})
    as [[[a q']|e] [p2 w2]] eqn:Ec;
    destruct (child_parseModel_frames doc p w Ha _ _ Ec) as (Ha2 & Hs2 & _);
    injection Hr as _ <-; split; assumption.
Qed.

Lemma frames_child_reset_emit (doc : Element) (k : option string -> list string) :
  frames n
    (r <- child_parseModel rec doc ;;
     on_parser (snd r) (reset false) ;;;
     mret (k (fst r))).
Proof.
  intros [p w] r st' Ha Hr. unfold mbind at 1 in Hr.
  destruct (child_parseModel rec doc {| self := p; world := w |})
    as [[[a q']|e] [p2 w2]] eqn:Ec;
    destruct (child_parseModel_frames doc p w Ha _ _ Ec) as (Ha2 & Hs2 & Hq2).
  - specialize (Hq2 a q' eq_refl). cbn [fst snd world] in *.
    unfold mbind in Hr.
    destruct (on_parser q' (reset false) {| self := p2; world := w2 |})
      as [[[u q'']|e] [p3 w3]] eqn:Er;
      destruct (on_parser_frames q' _ p2 w2 (frames_reset false) Ha2 Hq2 _ _ Er)
        as (Ha3 & Hs3 & _);
      injection Hr as _ <-; (split; [exact Ha3|]);
      unfold same_below in *; cbn in *; congruence.
  - injection Hr as _ <-. split; assumption.
Qed.

Lemma frames_level_up : frames n level_up.
Proof. apply frames_modify. intros p. split; reflexivity. Qed.

Lemma frames_level_down : frames n level_down.
Proof. apply frames_modify. intros p. split; reflexivity. Qed.

Ltac frames_step :=
  first
    [ apply frames_ret
    | apply frames_raise
    | apply frames_lift
    | apply rec_frames
    | apply frames_parseSource
    | apply frames_level_up
    | apply frames_level_down
    | apply frames_gets
    | apply frames_gets_world
    | apply frames_with_runner
    | apply frames_write_file
    | apply frames_child_emit
    | apply frames_child_reset_emit
    | (apply frames_modify; intros ?; split; reflexivity)
    | (apply frames_try; [|apply frames_ret])
    | (apply frames_bind; [|intros ?]) ].

Ltac frames_auto :=
  repeat first
    [ frames_step
    | match goal with
      | |- frames _ (if ?b then _ else _) => destruct b
      | |- frames _ (match ?x with _ => _ end) => destruct x
      end ].

Lemma frames_parseXML_child (item : option Element) (child : Element) :
  frames n (parseXML_child rec item child).
Proof. unfold parseXML_child. frames_auto. Qed.

Lemma frames_parseXML_body (node : Element) (item : option Element) :
  frames n (parseXML_body rec node item).
Proof.
  unfold parseXML_body.
  apply frames_bind; [apply frames_gets|intros lv].
  apply frames_bind; [apply frames_gets|intros ts].
  destruct (children node) as [|c cs]; [apply frames_ret|].
  apply frames_bind;
    [apply frames_for_each; intros x; apply frames_parseXML_child|intros body].
  frames_auto.
Qed.

Lemma frames_transform (itemlist : list Element) : frames n (transform itemlist).
Proof. unfold transform. frames_auto. Qed.

Lemma frames_parseGetNode_child (item child : Element) :
  frames n (parseGetNode_child rec item child).
Proof. unfold parseGetNode_child. frames_auto. Qed.

Lemma frames_parseGetNode_body (node : Element) :
  frames n (parseGetNode_body rec node).
Proof.
  unfold parseGetNode_body.
  apply frames_bind; [apply frames_gets|intros qp].
  apply frames_bind; [apply frames_gets|intros g].
  apply frames_bind; [apply frames_gets_world|intros sources].
  apply frames_bind; [apply frames_lift|intros itemlist].
  apply frames_bind; [apply frames_transform|intros tr].
  apply frames_bind; [|intros d; apply frames_ret].
  destruct (children node) as [|c cs]; [apply frames_ret|].
  apply frames_for_each. intros item.
  apply frames_for_each. intros child. apply frames_parseGetNode_child.
Qed.

Lemma frames_parseAction_child (child : Element) :
  frames n (parseAction_child rec child).
Proof. unfold parseAction_child. frames_auto. Qed.

Lemma frames_parseAction_body (node : Element) :
  frames n (parseAction_body rec node).
Proof.
  unfold parseAction_body.
  do 3 (apply frames_bind; [frames_step|intros ?]).
  apply frames_bind; [frames_auto|intros ?].
  apply frames_bind;
    [apply frames_for_each; intros x; apply frames_parseAction_child|intros ?].
  frames_auto.
Qed.

Lemma frames_parseQuery_child (child : Element) :
  frames n (parseQuery_child rec child).
Proof. unfold parseQuery_child, load_global. frames_auto. Qed.

(** [self.localsources=[]] *)
Lemma frames_new_localsources {A} (rest : M State A) :
  frames n rest ->
  frames n (l <- on_world new_list ;;
            on_self (modify (set_localsources l)) ;;; rest).
Proof.
  intros Hrest [p w] r st' (Hg & Hl & Hn) Hr. cbn in Hg, Hl, Hn.
  unfold mbind at 1 2 in Hr. cbn in Hr.
  eapply Hrest in Hr.
  - destruct Hr as [Ha Hs]. split; [exact Ha|].
    unfold same_below in *. cbn in *. rewrite Hs.
    apply take_app_le. exact Hn.
  - unfold above. cbn. rewrite length_app. cbn. repeat split; lia.
Qed.

Lemma frames_parseQuery_body (node : Element) :
  frames n (parseQuery_body rec node).
Proof.
  unfold parseQuery_body.
  apply frames_bind; [frames_step|intros ?].
  apply frames_new_localsources.
  apply frames_bind;
    [apply frames_for_each; intros x; apply frames_parseQuery_child|intros ?].
  apply frames_ret.
Qed.

Lemma frames_parseModel_child (child : Element) :
  frames n (parseModel_child rec child).
Proof. unfold parseModel_child. frames_auto. Qed.

Lemma frames_parseModel_body (doc : Element) :
  frames n (parseModel_body rec doc).
Proof.
  unfold parseModel_body.
  destruct (negb _); [apply frames_ret|].
  apply frames_bind;
    [apply frames_for_each; intros x; apply frames_parseModel_child|intros ?].
  frames_auto.
Qed.
End Bodies.

(** Every handler, at every depth, leaves the lists below the
    interpreter's own as they are. *)
Lemma frames_run (d : nat) (c : call) : frames n (run d c).
Proof.
  revert c. induction d as [|d IH]; intros c; simpl.
  - apply frames_raise.
  - destruct c.
    + apply frames_parseXML_body. exact IH.
    + apply frames_parseQuery_body. exact IH.
    + apply frames_parseAction_body. exact IH.
    + apply frames_parseGetNode_body. exact IH.
    + apply frames_parseModel_body. exact IH.
Qed.
End FrameFacts.

Section ChildInterpreter.
Context `{Env}.
Import ModelParser.

(** X27.  Whatever model a child interpreter evaluates, at whatever depth, and
    whether it returns or raises: the parent is the interpreter it was,
    and its global and local source lists hold what they held.  No source
    the child registers reaches a list of the parent. *)
Theorem child_keeps_parent_lists (d : nat) (doc : Element) (st st' : State)
    (r : result (option string * t)) :
  (globalsources (self st) < length (store (world st)))%nat ->
  (localsources (self st) < length (store (world st)))%nat ->
  child_parseModel (run d) doc st = (r, st') ->
  self st' = self st
  /\ list_read (globalsources (self st)) (world st')
     = list_read (globalsources (self st)) (world st)
  /\ list_read (localsources (self st)) (world st')
     = list_read (localsources (self st)) (world st).
Proof.
  destruct st as [p w]. cbn [self world]. intros Hg Hl Hr.
  unfold child_parseModel in Hr.
  unfold mbind at 1 2 3 in Hr. unfold on_self at 1 2, gets in Hr.
  cbn [self world] in Hr.
  unfold on_world at 1 in Hr. cbn [self world] in Hr.
  rewrite init_makes_fresh_lists in Hr. cbn [self world] in Hr.
  set (q := {| tabSize := _ |}) in Hr.
  set (w1 := {| store := _ |}) in Hr.
  assert (Hq : above (length (store w)) {| self := q; world := w1 |}).
  { unfold above, q, w1. cbn. rewrite !length_app. cbn. repeat split; lia. }
  unfold on_parser in Hr. cbn [self world] in Hr.
  destruct (run d (Model doc) {| self := q; world := w1 |})
    as [res [q2 w2]] eqn:Erun.
  destruct (frames_run (length (store w)) d (Model doc) _ _ _ Hq Erun)
    as [_ Hsame].
  unfold same_below in Hsame. cbn [world] in Hsame.
  assert (Hstore : take (length (store w)) (store w2) = store w).
  { rewrite Hsame. unfold w1. cbn [store]. rewrite <- app_assoc.
    apply take_app_length. }
  assert (Hread : forall i, (i < length (store w))%nat ->
                            list_read i w2 = list_read i w).
  { intros i Hi. unfold list_read.
    rewrite <- (lookup_take_lt (store w2) (length (store w)) i Hi).
    rewrite Hstore. reflexivity. }
  destruct res as [a|e]; injection Hr as _ <-; cbn [self world];
    (split; [reflexivity|]); split; apply Hread; assumption.
Qed.
End ChildInterpreter.

(** ** The properties on the example inputs *)

Section Runs.
Import ModelParser Example.

Lemma start_is_init : @__init__ env 0 1 world0 = (Ok (self start), world start).
Proof. reflexivity. Qed.

(** C1, as the code has it.  A source declared by a nested model goes to
    a list of the child interpreter: after the run the global list of the
    parent is empty, its query has found no record, and the source sits in
    another list of the store.  Declared by the model itself, the same
    source gives the query its two titles. *)
Theorem nested_model_source_not_shared :
  let res := @parseModel env 50 nested_model start in
  fst res = Ok (Some ("<div>" +:+ nl +:+ sentinel +:+ nl +:+ "</div>"))
  /\ list_read (globalsources (self (snd res))) (world (snd res)) = []
  /\ length (list_read 4 (world (snd res))) = 1%nat
  /\ fst (@parseModel env 50 flat_model start) = Ok (Some "Title1Title2").
Proof. vm_compute. repeat split; reflexivity. Qed.

(** The nested model of the example, evaluated by a child of the fresh
    interpreter: both lists of the parent stay as they are. *)
Lemma child_keeps_parent_lists_example :
  let res := @child_parseModel env (run 10)
               (Elem modelTAG [] None None [source_url]) start in
  self (snd res) = self start
  /\ list_read 2 (world (snd res)) = list_read 2 (world start)
  /\ list_read 3 (world (snd res)) = list_read 3 (world start).
Proof.
  cbv zeta.
  destruct (@child_parseModel env (run 10)
              (Elem modelTAG [] None None [source_url]) start)
    as [r st'] eqn:E.
  apply (@child_keeps_parent_lists env 10
           (Elem modelTAG [] None None [source_url]) start st' r);
    [cbn; lia|cbn; lia|exact E].
Defined.

(** C2, as the code has it.  The two scripts are one after the line ends
    are replaced, and the executor stores the same code for both; the
    keys are hash objects over the two texts as given, the second key is
    not in the cache the first run filled, and the script is compiled a
    second time. *)
Theorem crlf_script_misses_cache :
  let e1 := snd (@Executor.run_text env (Some script_lf) None Executor.new) in
  let e2 := snd (@Executor.run_text env (Some script_crlf) None e1) in
  replace_crlf script_crlf = script_lf
  /\ Executor.code e1 = Executor.code e2
  /\ option_map md5_text (Executor.key e1) = Some script_lf
  /\ option_map md5_text (Executor.key e2) = Some script_crlf
  /\ Cache.contains (Executor.key e2) (Executor.execCache e1) = false
  /\ Executor.n_compile e1 = 1%nat
  /\ Executor.n_compile e2 = 2%nat.
Proof. vm_compute. repeat split; reflexivity. Qed.

(** The same text set a second time gets a new key object, and is
    compiled again. *)
Lemma same_text_set_twice_compiles_twice :
  let e1 := snd (@Executor.run_text env (Some script_lf) None Executor.new) in
  let e2 := snd (@Executor.run_text env (Some script_lf) None e1) in
  option_map md5_id (Executor.key e1) = Some 0%nat
  /\ option_map md5_id (Executor.key e2) = Some 1%nat
  /\ Executor.n_compile e2 = 2%nat
  /\ Executor.n_exec e2 = 2%nat.
Proof. vm_compute. repeat split; reflexivity. Qed.

(** The empty text is not compiled at all: [setCode] leaves it out, the
    run raises where it reads [self.code], and nothing is compiled or
    executed, the first time or the second. *)
Lemma empty_script_is_not_compiled :
  let r1 := @Executor.run_text env (Some EmptyString) None Executor.new in
  let r2 := @Executor.run_text env (Some EmptyString) None (snd r1) in
  fst r1 = Raise AttributeError
  /\ fst r2 = Raise AttributeError
  /\ Executor.n_compile (snd r2) = 0%nat
  /\ Executor.n_exec (snd r2) = 0%nat.
Proof. vm_compute. repeat split; reflexivity. Qed.

Lemma same_text_run_twice_compiles_twice_witness :
  let e1 := snd (@Executor.run_text env (Some script_lf) None Executor.new) in
  let e1' := snd (Executor.setCode (Some script_lf) e1) in
  let e2 := snd (@Executor.run_text env (Some script_lf) None e1) in
  option_map md5_text (Executor.key e1) = Some script_lf
  /\ option_map md5_text (Executor.key e1') = Some script_lf
  /\ Executor.code e1' = Executor.code e1
  /\ Cache.retrieve (Executor.key e1) (Executor.execCache e1)
     = Some (replace_crlf script_lf)
  /\ Cache.contains (Executor.key e1') (Executor.execCache e1') = false
  /\ Executor.n_compile e1 = 1%nat /\ Executor.n_exec e1 = 1%nat
  /\ Executor.n_compile e2 = 2%nat /\ Executor.n_exec e2 = 2%nat.
Proof.
  apply (@same_text_run_twice_compiles_twice env script_lf
           (replace_crlf script_lf) None None Executor.new).
  - discriminate.
  - reflexivity.
  - intros i _. apply lookup_empty.
Defined.

Lemma primed_script_compiles_once_witness :
  let e0 := snd ((Executor.setCode (Some script_lf) ;;; Executor.setTree None)
                   (@Executor.new env)) in
  let e1 := snd (Executor.runAction e0) in
  let e2 := snd (Executor.runAction e1) in
  Executor.n_compile e1 = 1%nat /\ Executor.n_exec e1 = 1%nat
  /\ Cache.retrieve (Executor.key e0) (Executor.execCache e1)
     = Some (replace_crlf script_lf)
  /\ Executor.n_compile e2 = 1%nat /\ Executor.n_exec e2 = 2%nat
  /\ Executor.out e2 = Some (replace_crlf script_lf).
Proof.
  apply (@primed_script_compiles_once env script_lf (replace_crlf script_lf)
           None Executor.new).
  - discriminate.
  - reflexivity.
  - intros i _. apply lookup_empty.
Defined.

(** A query with a source child on the example inputs: the literal after
    the source is never reached. *)
Lemma query_with_source_raises :
  fst (@parseQuery env 5 query_with_source start) = Raise NameError.
Proof. reflexivity. Qed.

Lemma parseModel_invalid_root_witness :
  @parseModel env 5 feed start = (Ok None, start)
  /\ fst (@parseModel env 5 flat_model start) <> Ok None.
Proof.
  split.
  - apply (proj1 (@parseModel_invalid_root env 4 feed start)). discriminate.
  - apply (proj2 (@parseModel_invalid_root env 4 flat_model start)). reflexivity.
Defined.

Lemma parseAction_clears_transform_witness :
  let st' := snd (@parseAction env 5 sort_action loaded) in
  atype (self st') = Some EmptyString /\ skey (self st') = Some EmptyString
  /\ forall itemlist, fst (@transform env itemlist st') = Ok ([], itemlist).
Proof.
  cbv zeta.
  pose proof (proj1 (@parseAction_clears_transform env 5 sort_action loaded)) as Hc.
  destruct (@parseAction env 5 sort_action loaded) as [[r|e] st'] eqn:E.
  - exact (Hc r st' eq_refl).
  - vm_compute in E. discriminate.
Defined.

Lemma parseGetContent_title :
  @parseGetContent env (getcontent "./title") (Some (post "1")) = Ok (Some "Title1")
  /\ @parseGetContent env (getcontent "./title") (Some untitled) = Ok None
  /\ @parseGetContent env (Elem getcontentTAG [] None None []) (Some (post "1"))
     = Ok None.
Proof. repeat split; reflexivity. Qed.



Lemma sort_orders_by_key_witness :
  (exists R1, @Sort.sort env records "title" false = Ok R1
              /\ Permutation records R1
              /\ StronglySorted (@key_le env "title") R1)
  /\ (exists R2, @Sort.sort env records "title" true = Ok R2
                 /\ Permutation records R2
                 /\ StronglySorted (fun x y => @key_le env "title" y x) R2)
  /\ ((length records <= 1)%nat ->
      @Sort.sort env records "title" false = Ok records
      /\ @Sort.sort env records "title" true = Ok records).
Proof.
  apply (@sort_orders_by_key env records "title").
  intros r [<-|[<-|[<-|[]]]]; eexists _, _; split; reflexivity.
Defined.

Lemma sort_records :
  @Sort.sort env records "title" false = Ok [titled "a"; titled "b"; titled "C"]
  /\ @Sort.sort env records "title" true = Ok [titled "C"; titled "b"; titled "a"].
Proof. split; reflexivity. Qed.
End Runs.


(** * Further properties of the code *)

(** ** cache.py *)

Section CacheFacts.
Context `{Env}.

(** X1.  An object stored under a key is found under that key, by [contains]
    and by [retrieve]; what is stored under another key object stays as it
    was.  [add] returns the key and does not raise. *)
Theorem cache_add_retrieve (item : codeobj) (k k' : md5) (c : Cache.t) :
  fst (Cache.add item (Some k) c) = Ok k
  /\ Cache.contains (Some k) (snd (Cache.add item (Some k) c)) = true
  /\ Cache.retrieve (Some k) (snd (Cache.add item (Some k) c)) = Some item
  /\ (md5_id k' <> md5_id k ->
      Cache.contains (Some k') (snd (Cache.add item (Some k) c))
      = Cache.contains (Some k') c
      /\ Cache.retrieve (Some k') (snd (Cache.add item (Some k) c))
         = Cache.retrieve (Some k') c).
Proof.
  unfold Cache.add, Cache.contains, Cache.retrieve, mbind, modify, mret.
  cbn [fst snd Cache.cache].
  rewrite lookup_insert_eq. repeat split; try reflexivity;
    rewrite lookup_insert_ne by congruence; reflexivity.
Qed.

(** X2.  [remove] never raises; afterwards the key is not in the cache, the
    entries of other key objects are as before, and removing a key that
    is not in the cache changes nothing. *)
Theorem cache_remove (k k' : md5) (c : Cache.t) :
  fst (Cache.remove (Some k) c) = Ok tt
  /\ Cache.contains (Some k) (snd (Cache.remove (Some k) c)) = false
  /\ Cache.retrieve (Some k) (snd (Cache.remove (Some k) c)) = None
  /\ (md5_id k' <> md5_id k ->
      Cache.retrieve (Some k') (snd (Cache.remove (Some k) c))
      = Cache.retrieve (Some k') c)
  /\ (Cache.contains (Some k) c = false -> snd (Cache.remove (Some k) c) = c).
Proof.
  unfold Cache.remove, Cache.contains, Cache.retrieve, modify.
  cbn [fst snd Cache.cache].
  rewrite lookup_delete_eq. repeat split.
  - intros Hne. apply lookup_delete_ne. congruence.
  - intros Habsent. destruct c as [m sz]. cbn [Cache.cache Cache.maxsize] in *.
    destruct (m !! md5_id k) eqn:Em; [discriminate|].
    rewrite (delete_id m _ Em). reflexivity.
Qed.
End CacheFacts.

(** ** executor.py *)

Lemma replace_crlf_other (c : ascii) (s : string) :
  c <> "013"%char ->
  replace_crlf (String c s) = String c (replace_crlf s).
Proof.
  intros Hc. destruct c as [[] [] [] [] [] [] [] []];
    try reflexivity; congruence.
Qed.

Lemma replace_crlf_cr (s : string) :
  replace_crlf (String "013"%char s)
  = match s with
    | String c s' =>
        if Ascii.eqb c "010"%char then String "010"%char (replace_crlf s')
        else String "013"%char (replace_crlf s)
    | EmptyString => String "013"%char EmptyString
    end.
Proof.
  destruct s as [|c s']; [reflexivity|].
  destruct c as [[] [] [] [] [] [] [] []]; reflexivity.
Qed.

Lemma replace_crlf_length_le (n : nat) (s : string) :
  (String.length s <= n)%nat ->
  (String.length (replace_crlf s) <= String.length s)%nat.
Proof.
  revert s. induction n as [|n IH]; intros s Hn.
  - destruct s; [simpl; lia|simpl in Hn; lia].
  - destruct s as [|c s]; [simpl; lia|].
    destruct (Ascii.eqb_spec c "013"%char) as [->|Hc].
    + rewrite replace_crlf_cr. destruct s as [|c' s']; [simpl; lia|].
      simpl in Hn.
      destruct (Ascii.eqb c' "010"%char).
      * cbn [String.length]. specialize (IH s'). lia.
      * cbn [String.length]. specialize (IH (String c' s')).
        cbn [String.length] in IH. lia.
    + rewrite (replace_crlf_other c s Hc). cbn [String.length].
      simpl in Hn. specialize (IH s). lia.
Qed.

Lemma replace_crlf_no_cr (s : string) :
  no_cr s = true -> replace_crlf s = s.
Proof.
  induction s as [|c s IH]; intros Hs; [reflexivity|].
  simpl in Hs. apply andb_prop in Hs. destruct Hs as [Hc Hs].
  rewrite replace_crlf_other.
  - rewrite (IH Hs). reflexivity.
  - intros ->. discriminate.
Qed.

(** A text without a carriage return is left as it is by the replacement
    of line ends, and no text gets longer by it. *)
Theorem replace_crlf_plain (s : string) :
  (no_cr s = true -> replace_crlf s = s)
  /\ (String.length (replace_crlf s) <= String.length s)%nat.
Proof.
  split.
  - apply replace_crlf_no_cr.
  - apply (replace_crlf_length_le (String.length s)). lia.
Qed.

Section ExecutorInvariant.
Context `{Env}.
Import Executor.

Lemma executor_inv_new : executor_inv new.
Proof.
  split.
  - intros i _. apply lookup_empty.
  - intros k Hk. discriminate.
Qed.

(** The invariant reads the cache, the key and the allocation counter. *)
Lemma executor_inv_same (e e' : t) :
  Cache.cache (execCache e') = Cache.cache (execCache e) ->
  key e' = key e -> fresh e' = fresh e ->
  executor_inv e -> executor_inv e'.
Proof.
  intros Hc Hk Hf [Hwf Hkey]. split.
  - intros i Hi. rewrite Hc. apply Hwf. lia.
  - intros k Ek. rewrite Hf. apply Hkey. congruence.
Qed.

Lemma executor_inv_insert (e e' : t) (k : md5) (o : codeobj) :
  key e = Some k ->
  Cache.cache (execCache e') = <[md5_id k := o]> (Cache.cache (execCache e)) ->
  key e' = key e -> fresh e' = fresh e ->
  executor_inv e -> executor_inv e'.
Proof.
  intros Ek Hc Hk Hf [Hwf Hkey]. specialize (Hkey k Ek). split.
  - intros i Hi. rewrite Hc. rewrite lookup_insert_ne by lia. apply Hwf. lia.
  - intros k' Ek'. rewrite Hf. rewrite Hk, Ek in Ek'.
    injection Ek' as <-. exact Hkey.
Qed.

Lemma executor_inv_setCode (c : option string) (e : t) :
  executor_inv e -> executor_inv (snd (setCode c e)).
Proof.
  intros [Hwf Hkey]. unfold setCode. destruct (truthy c); [|split; assumption].
  split.
  - intros i Hi. cbn in *. apply Hwf. lia.
  - intros k Ek. cbn in *. injection Ek as <-. cbn. lia.
Qed.

Lemma executor_inv_exec_out (e : t) :
  executor_inv e -> executor_inv (snd (exec_out e)).
Proof.
  intros Hinv. unfold exec_out, mbind, gets, modify, mraise, lift_result, mret, setTree.
  cbn. destruct (out e) as [c|]; [|exact Hinv]. cbn.
  destruct (exec c (tree e)) as [[tr txt]|x]; cbn;
    (eapply executor_inv_same; [| | |exact Hinv]); reflexivity.
Qed.

Lemma executor_inv_compile_and_add (e : t) :
  executor_inv e -> executor_inv (snd (compile_and_add e)).
Proof.
  intros Hinv.
  unfold compile_and_add, with_cache, Cache.add, mbind, gets, modify, mraise,
    lift_result, mret.
  cbn. destruct (code e) as [c|]; [|exact Hinv]. cbn.
  destruct (compile c) as [o|x]; cbn.
  - destruct (key e) as [k|] eqn:Ek; cbn.
    + eapply (executor_inv_insert e _ k o); try reflexivity; assumption.
    + eapply executor_inv_same; [| | |exact Hinv]; reflexivity.
  - eapply executor_inv_same; [| | |exact Hinv]; reflexivity.
Qed.

(** X3.  Every method of the executor keeps the invariant, whether it returns
    or raises: the key is an allocated hash object, and the cache has no
    entry under an identity that is still to be given out. *)
Theorem executor_inv_preserved (e : t) :
  executor_inv e ->
  (forall n, executor_inv (snd (setName n e)))
  /\ (forall tr, executor_inv (snd (setTree tr e)))
  /\ (forall c, executor_inv (snd (setCode c e)))
  /\ executor_inv (snd (runAction e))
  /\ executor_inv (snd (runSource e)).
Proof.
  intros Hinv. split; [|split; [|split; [|split]]].
  - intros n. eapply executor_inv_same; [| | |exact Hinv]; reflexivity.
  - intros tr. eapply executor_inv_same; [| | |exact Hinv]; reflexivity.
  - intros c. apply executor_inv_setCode. exact Hinv.
  - unfold runAction. unfold mbind at 1 2. cbn [gets].
    destruct (Cache.contains (key e) (execCache e)); cbn [negb].
    + unfold mbind at 1 2. cbn.
      set (e1 := set_out _ e).
      assert (H1 : executor_inv e1).
      { eapply executor_inv_same; [| | |exact Hinv]; reflexivity. }
      pose proof (executor_inv_exec_out e1 H1) as H2.
      unfold mbind. destruct (exec_out e1) as [[r|x] e2]; exact H2.
    + unfold mbind at 1.
      pose proof (executor_inv_compile_and_add e Hinv) as H1.
      destruct (compile_and_add e) as [[u|x] e1]; [|exact H1].
      pose proof (executor_inv_exec_out e1 H1) as H2.
      unfold mbind. destruct (exec_out e1) as [[r|x] e2]; exact H2.
  - unfold runSource. unfold mbind at 1 2. cbn [gets].
    destruct (Cache.contains (key e) (execCache e)); cbn [negb].
    + exact Hinv.
    + unfold mbind at 1.
      pose proof (executor_inv_compile_and_add e Hinv) as H1.
      destruct (compile_and_add e) as [[u|x] e1]; [|exact H1].
      pose proof (executor_inv_exec_out e1 H1) as H2.
      unfold mbind. destruct (exec_out e1) as [[r|x] e2]; exact H2.
Qed.
End ExecutorInvariant.

Section ExecutorRuns.
Context `{Env}.
Import Executor.

Lemma setCode_misses (a : ascii) (c : string) (e : t) :
  executor_inv e ->
  Cache.contains (key (snd (setCode (Some (String a c)) e)))
    (execCache (snd (setCode (Some (String a c)) e))) = false.
Proof.
  intros [Hwf _]. cbn. rewrite (Hwf (fresh e)) by lia. reflexivity.
Qed.

Lemma compile_and_add_count (e e2 : t) (c : string) (r : result unit) :
  code e = Some c ->
  compile_and_add e = (r, e2) -> n_compile e2 = S (n_compile e).
Proof.
  intros Hcode. unfold compile_and_add, with_cache, Cache.add, mbind, gets,
    modify, mraise, lift_result, mret. cbn. rewrite Hcode. cbn.
  destruct (compile c) as [o|x]; cbn.
  - destruct (key e) as [k|]; cbn; intros Hr; injection Hr as _ <-; reflexivity.
  - intros Hr. injection Hr as _ <-. reflexivity.
Qed.

Lemma exec_out_count (e e2 : t) (r : result (option Element * string)) :
  exec_out e = (r, e2) -> n_compile e2 = n_compile e.
Proof.
  unfold exec_out, mbind, gets, modify, mraise, lift_result, mret, setTree. cbn.
  destruct (out e) as [o|]; cbn.
  - destruct (exec o (tree e)) as [[tr txt]|x]; cbn;
      intros Hr; injection Hr as _ <-; reflexivity.
  - intros Hr. injection Hr as _ <-. reflexivity.
Qed.

Lemma compile_then_exec_count {A} (e : t) (c : string)
    (f : option Element * string -> A) :
  code e = Some c ->
  n_compile (snd ((compile_and_add ;;; r <- exec_out ;; mret (f r)) e))
  = S (n_compile e).
Proof.
  intros Hcode. unfold mbind.
  destruct (compile_and_add e) as [[u|x] e2] eqn:Hca.
  - pose proof (compile_and_add_count _ _ _ _ Hcode Hca) as H2.
    destruct (exec_out e2) as [[r3|x3] e3] eqn:Hex;
      pose proof (exec_out_count _ _ _ Hex) as H3; cbn; congruence.
  - exact (compile_and_add_count _ _ _ _ Hcode Hca).
Qed.

(** X4.  After [setCode] of a text that is not empty the key is a new object,
    so it is in no cache entry: the next run, [runAction] or [runSource],
    calls [compile], whatever was run before. *)
Theorem setCode_forces_compile (c : string) (e : t) :
  c <> EmptyString ->
  executor_inv e ->
  let e1 := snd (setCode (Some c) e) in
  Cache.contains (key e1) (execCache e1) = false
  /\ n_compile (snd (runAction e1)) = S (n_compile e)
  /\ n_compile (snd (runSource e1)) = S (n_compile e).
Proof.
  intros Hc Hinv. destruct c as [|a c]; [congruence|]. cbv zeta.
  pose proof (setCode_misses a c e Hinv) as Hmiss.
  split; [exact Hmiss|].
  split.
  - unfold runAction. unfold mbind at 1 2. cbn [gets]. rewrite Hmiss. cbn [negb].
    transitivity (S (n_compile (snd (setCode (Some (String a c)) e))));
      [|reflexivity].
    apply (compile_then_exec_count _ (replace_crlf (String a c)) snd).
    reflexivity.
  - unfold runSource. unfold mbind at 1 2. cbn [gets]. rewrite Hmiss. cbn [negb].
    transitivity (S (n_compile (snd (setCode (Some (String a c)) e))));
      [|reflexivity].
    apply (compile_then_exec_count _ (replace_crlf (String a c)) fst).
    reflexivity.
Qed.

(** X5.  [runSource] can use a code object once: when the key is in the cache
    it reads the name [__execCache] and raises [NameError], and the
    executor is left as it was, nothing compiled and nothing executed. *)
Theorem runSource_twice_raises (c : string) (o : codeobj)
    (tr : option Element) (e : t) :
  c <> EmptyString ->
  compile (replace_crlf c) = Ok o ->
  wf e ->
  let e0 := snd ((setCode (Some c) ;;; setTree tr) e) in
  let e1 := snd (runSource e0) in
  n_compile e1 = S (n_compile e) /\ n_exec e1 = S (n_exec e)
  /\ runSource e1 = (Raise NameError, e1).
Proof.
  intros Hc Hcomp Hwf. destruct c as [|a c]; [congruence|].
  assert (Hmiss : Cache.cache (execCache e) !! fresh e = None).
  { apply Hwf. lia. }
  cbv zeta.
  unfold runSource, compile_and_add, exec_out, with_cache, setTree, setCode,
    Cache.add, Cache.contains, Cache.retrieve, Cache.getkey,
    mbind, gets, modify, mret, mraise, lift_result.
  cbn -[replace_crlf lookup insert].
  rewrite Hmiss. cbn -[replace_crlf lookup insert].
  rewrite Hcomp. cbn -[replace_crlf lookup insert].
  destruct (exec o tr) as [[tr1 txt1]|x1];
    cbn -[replace_crlf lookup insert];
    rewrite lookup_insert_eq; cbn -[replace_crlf lookup insert];
    repeat split; reflexivity.
Qed.

(** X6.  A text that does not compile is never stored: each [runAction]
    raises the error of [compile], calls [compile] again, and leaves the
    cache and the count of executions as they were. *)
Theorem compile_failure_not_cached (c : string) (x : exn)
    (tr : option Element) (e : t) :
  c <> EmptyString ->
  compile (replace_crlf c) = Raise x ->
  wf e ->
  let e0 := snd ((setCode (Some c) ;;; setTree tr) e) in
  let r1 := runAction e0 in
  let r2 := runAction (snd r1) in
  fst r1 = Raise x /\ fst r2 = Raise x
  /\ n_compile (snd r2) = S (S (n_compile e))
  /\ n_exec (snd r2) = n_exec e
  /\ execCache (snd r2) = execCache e.
Proof.
  intros Hc Hcomp Hwf. destruct c as [|a c]; [congruence|].
  assert (Hmiss : Cache.cache (execCache e) !! fresh e = None).
  { apply Hwf. lia. }
  cbv zeta.
  unfold runAction, compile_and_add, exec_out, with_cache, setTree, setCode,
    Cache.add, Cache.contains, Cache.retrieve, Cache.getkey,
    mbind, gets, modify, mret, mraise, lift_result.
  cbn -[replace_crlf lookup insert].
  rewrite Hmiss. cbn -[replace_crlf lookup insert].
  rewrite Hcomp. cbn -[replace_crlf lookup insert].
  rewrite Hmiss. cbn -[replace_crlf lookup insert].
  rewrite Hcomp. cbn -[replace_crlf lookup insert].
  repeat split; reflexivity.
Qed.

(** X7.  For a text without a carriage return the stored code is the text, and
    the key is a hash object over that same text. *)
Theorem setCode_plain (c : string) (e : t) :
  c <> EmptyString ->
  no_cr c = true ->
  code (snd (setCode (Some c) e)) = Some c
  /\ option_map md5_text (key (snd (setCode (Some c) e))) = Some c.
Proof.
  intros Hc Hplain. destruct c as [|a c]; [congruence|].
  cbn -[replace_crlf]. rewrite (replace_crlf_no_cr (String a c) Hplain).
  split; reflexivity.
Qed.
End ExecutorRuns.

(** ** sort.py *)

Lemma compare_refl (s : string) : String.compare s s = Eq.
Proof.
  pose proof (String.compare_antisym s s) as Ha.
  destruct (String.compare s s); [reflexivity|discriminate|discriminate].
Qed.

Section StableSort.
Variable cmp : Element -> Element -> result comparison.
Variable f : Element -> Element -> comparison.
Variable k : Element -> string.

(** Records with the same key compare equal. *)
Hypothesis f_same : forall x y, k x = k y -> f x y = Eq.

Lemma insert_by_perm (x : Element) (l l' : list Element) :
  Sort.insert_by cmp x l = Ok l' -> Permutation (x :: l) l'.
Proof.
  revert l'. induction l as [|y l IH]; intros l' Hins; simpl in Hins.
  - injection Hins as <-. reflexivity.
  - destruct (cmp x y) as [c|e]; [|discriminate]. simpl in Hins.
    destruct c; try (injection Hins as <-; reflexivity).
    destruct (Sort.insert_by cmp x l) as [r|e] eqn:Er; [|discriminate].
    simpl in Hins. injection Hins as <-.
    rewrite perm_swap. constructor. apply IH. reflexivity.
Qed.

Lemma list_sort_perm (l l' : list Element) :
  Sort.list_sort cmp l = Ok l' -> Permutation l l'.
Proof.
  revert l'. induction l as [|x l IH]; intros l' Hs; simpl in Hs.
  - injection Hs as <-. constructor.
  - destruct (Sort.list_sort cmp l) as [s|e] eqn:Es; [|discriminate].
    simpl in Hs. transitivity (x :: s).
    + constructor. apply IH. reflexivity.
    + apply insert_by_perm. exact Hs.
Qed.

Lemma insert_by_stable (v : string) (x : Element) (l l' : list Element) :
  (forall y, In y l -> cmp x y = Ok (f x y)) ->
  Sort.insert_by cmp x l = Ok l' ->
  List.filter (fun r => String.eqb (k r) v) l'
  = List.filter (fun r => String.eqb (k r) v) (x :: l).
Proof.
  revert l'. induction l as [|y l IH]; intros l' Hc Hins; simpl in Hins.
  - injection Hins as <-. reflexivity.
  - rewrite (Hc y (or_introl eq_refl)) in Hins. simpl in Hins.
    destruct (f x y) eqn:Exy; try (injection Hins as <-; reflexivity).
    destruct (Sort.insert_by cmp x l) as [r|e] eqn:Er; [|discriminate].
    simpl in Hins. injection Hins as <-.
    assert (IHr : List.filter (fun r => String.eqb (k r) v) r
                  = List.filter (fun r => String.eqb (k r) v) (x :: l)).
    { apply IH; [|reflexivity]. intros z Hz. apply Hc. right. exact Hz. }
    simpl in *. rewrite IHr.
    destruct (String.eqb_spec (k x) v) as [Hx|Hx];
      destruct (String.eqb_spec (k y) v) as [Hy|Hy]; try reflexivity.
    rewrite (f_same x y) in Exy by congruence. discriminate.
Qed.

Lemma list_sort_stable (v : string) (l l' : list Element) :
  (forall x y, In x l -> In y l -> cmp x y = Ok (f x y)) ->
  Sort.list_sort cmp l = Ok l' ->
  List.filter (fun r => String.eqb (k r) v) l'
  = List.filter (fun r => String.eqb (k r) v) l.
Proof.
  revert l'. induction l as [|x l IH]; intros l' Hc Hs; simpl in Hs.
  - injection Hs as <-. reflexivity.
  - destruct (Sort.list_sort cmp l) as [s|e] eqn:Es; [|discriminate].
    simpl in Hs.
    assert (Ks : List.filter (fun r => String.eqb (k r) v) s
                 = List.filter (fun r => String.eqb (k r) v) l).
    { apply IH; [|reflexivity]. intros a b Ha Hb. apply Hc; right; assumption. }
    assert (Hcs : forall y, In y s -> cmp x y = Ok (f x y)).
    { intros y Hy. apply Hc; [left; reflexivity|].
      right. eapply Permutation_in; [|exact Hy].
      symmetry. apply list_sort_perm. exact Es. }
    rewrite (insert_by_stable v x s l' Hcs Hs). simpl. rewrite Ks. reflexivity.
Qed.

(** A list that is in order already is returned as it is. *)
Lemma list_sort_sorted_fixed (l : list Element) :
  (forall x y, In x l -> In y l -> cmp x y = Ok (f x y)) ->
  StronglySorted (fun x y => f x y <> Gt) l ->
  Sort.list_sort cmp l = Ok l.
Proof.
  induction l as [|x l IH]; intros Hc Hs; [reflexivity|].
  inversion Hs as [|? ? Hs' Hall]; subst. simpl.
  rewrite IH; [|intros a b Ha Hb; apply Hc; right; assumption|exact Hs'].
  simpl. destruct l as [|y l]; [reflexivity|]. simpl.
  rewrite (Hc x y); [|left; reflexivity|right; left; reflexivity]. simpl.
  inversion Hall as [|? ? Hxy _]; subst.
  destruct (f x y); [reflexivity|reflexivity|congruence].
Qed.
End StableSort.

Section MissingKey.
Variable cmp : Element -> Element -> result comparison.
Variable has : Element -> bool.

Lemma cmp_by_key_perm (l l' : list Element) :
  Permutation l l' -> cmp_by_key cmp has l -> cmp_by_key cmp has l'.
Proof.
  intros Hp Hc x y Hx Hy.
  apply Hc; (eapply Permutation_in; [symmetry; exact Hp|assumption]).
Qed.

Lemma insert_by_all_have (x : Element) (l : list Element) :
  cmp_by_key cmp has (x :: l) ->
  has x = true -> forallb has l = true ->
  exists l', Sort.insert_by cmp x l = Ok l'.
Proof.
  induction l as [|y l IH]; intros Hc Hx Hl; simpl.
  - exists [x]. reflexivity.
  - simpl in Hl. apply andb_prop in Hl. destruct Hl as [Hy Hl].
    destruct (proj1 (Hc x y (or_introl eq_refl) (or_intror (or_introl eq_refl)))
                Hx Hy) as (c & Ec).
    rewrite Ec. simpl.
    destruct c; try (eexists; reflexivity).
    destruct IH as (r & Er); [|exact Hx|exact Hl|].
    { intros a b Ha Hb. apply Hc; simpl in *; tauto. }
    rewrite Er. simpl. eexists. reflexivity.
Qed.

Lemma list_sort_all_have (l : list Element) :
  cmp_by_key cmp has l -> forallb has l = true ->
  exists l', Sort.list_sort cmp l = Ok l'.
Proof.
  induction l as [|x l IH]; intros Hc Hl; simpl.
  - exists []. reflexivity.
  - simpl in Hl. apply andb_prop in Hl. destruct Hl as [Hx Hl].
    destruct IH as (s & Es); [|exact Hl|].
    { intros a b Ha Hb. apply Hc; right; assumption. }
    rewrite Es. simpl.
    pose proof (list_sort_perm cmp l s Es) as Ps.
    apply insert_by_all_have; [|exact Hx|].
    + eapply cmp_by_key_perm; [|exact Hc]. constructor. exact Ps.
    + rewrite forallb_forall in *. intros y Hy. apply Hl.
      eapply Permutation_in; [symmetry; exact Ps|exact Hy].
Qed.

Lemma list_sort_missing (l : list Element) :
  cmp_by_key cmp has l ->
  (2 <= length l)%nat -> forallb has l = false ->
  Sort.list_sort cmp l = Raise AttributeError.
Proof.
  induction l as [|x l IH]; intros Hc Hlen Hl; [simpl in Hlen; lia|].
  assert (Hc' : cmp_by_key cmp has l).
  { intros a b Ha Hb. apply Hc; right; assumption. }
  simpl. destruct (forallb has l) eqn:Hall.
  - destruct (list_sort_all_have l Hc' Hall) as (s & Es). rewrite Es. simpl.
    pose proof (list_sort_perm cmp l s Es) as Ps.
    simpl in Hl. rewrite Hall, andb_true_r in Hl.
    destruct s as [|y s].
    + apply Permutation_length in Ps. simpl in *. lia.
    + simpl. rewrite (proj2 (Hc x y (or_introl eq_refl)
                               (or_intror (Permutation_in _ (Permutation_sym Ps)
                                                          (or_introl eq_refl)))));
        [reflexivity|left; exact Hl].
  - destruct l as [|y [|z l]].
    + simpl in Hlen. lia.
    + simpl in Hall. rewrite andb_true_r in Hall. simpl.
      rewrite (proj2 (Hc x y (or_introl eq_refl) (or_intror (or_introl eq_refl))));
        [reflexivity|right; exact Hall].
    + rewrite IH; [reflexivity|exact Hc'|simpl; lia|reflexivity].
Qed.
End MissingKey.

Section SortMore.
Context `{Env}.

Lemma key_of_one_key (K : string) (r : Element) :
  one_key K r -> Sort.sort_key K r = Ok (key_of K r).
Proof.
  intros Hr. destruct (one_key_findtext K r Hr) as (t & _ & Ht).
  unfold key_of. rewrite Ht. reflexivity.
Qed.

Lemma sort_returns (R : list Element) (K : string) (reverse : bool) :
  (forall r, In r R -> one_key K r) ->
  exists R', Sort.sort R K reverse = Ok R'.
Proof.
  intros Hkeys. destruct reverse.
  - destruct (sort_descending R K Hkeys) as (R' & ER & _). exists R'. exact ER.
  - destruct (sort_ascending R K Hkeys) as (R' & ER & _). exists R'. exact ER.
Qed.

(** X8.  The sort is stable, in both directions: records whose keys are the
    same text without case keep the order they had, also in a descending
    sort. *)
Theorem sort_stable (R : list Element) (K : string) (reverse : bool)
    (v : string) :
  (forall r, In r R -> one_key K r) ->
  exists R', Sort.sort R K reverse = Ok R'
             /\ List.filter (fun r => String.eqb (key_of K r) v) R'
                = List.filter (fun r => String.eqb (key_of K r) v) R.
Proof.
  intros Hkeys. destruct (sort_returns R K reverse Hkeys) as (R' & ER).
  exists R'. split; [exact ER|].
  unfold Sort.sort in ER.
  destruct (1 <? length R)%nat; [|injection ER as <-; reflexivity].
  destruct reverse.
  - apply (list_sort_stable (Sort.cmp_desc K)
             (fun x y => String.compare (key_of K y) (key_of K x))
             (key_of K)) with (l := R).
    + intros x y Exy. rewrite Exy. apply compare_refl.
    + intros x y Hx Hy. apply cmp_desc_ok; auto.
    + exact ER.
  - apply (list_sort_stable (Sort.cmp_asc K)
             (fun x y => String.compare (key_of K x) (key_of K y))
             (key_of K)) with (l := R).
    + intros x y Exy. rewrite Exy. apply compare_refl.
    + intros x y Hx Hy. apply cmp_asc_ok; auto.
    + exact ER.
Qed.

(** X10.  The missing key.  With two records or more, of which one has no
    descendant matching the key, the sort raises [AttributeError], in
    both directions; with one record or none it is not looked at. *)
Theorem sort_missing_key (R : list Element) (K : string) (reverse : bool) :
  (forall r, In r R -> exists o, findtext (".//" +:+ K) r = Ok o) ->
  (exists r, In r R /\ findtext (".//" +:+ K) r = Ok None) ->
  ((2 <= length R)%nat -> Sort.sort R K reverse = Raise AttributeError)
  /\ ((length R <= 1)%nat -> Sort.sort R K reverse = Ok R).
Proof.
  intros Hfind (r0 & Hr0 & Hnone). split; [|apply sort_short].
  intros Hlen. unfold Sort.sort.
  destruct (Nat.ltb_spec 1 (length R)) as [_|]; [|lia].
  set (has := fun r => match findtext (".//" +:+ K) r with
                       | Ok (Some _) => true
                       | _ => false
                       end).
  assert (Hmiss : forallb has R = false).
  { apply not_true_is_false. intros Hall. rewrite forallb_forall in Hall.
    specialize (Hall r0 Hr0). unfold has in Hall. rewrite Hnone in Hall.
    discriminate. }
  assert (Hkey : forall x, In x R ->
            Sort.sort_key K x
            = if has x then Ok (key_of K x) else Raise AttributeError).
  { intros x Hx. destruct (Hfind x Hx) as (o & Eo).
    unfold key_of, Sort.sort_key, has. rewrite Eo. destruct o; reflexivity. }
  destruct reverse.
  - apply (list_sort_missing (Sort.cmp_desc K) has); [|exact Hlen|exact Hmiss].
    intros x y Hx Hy. unfold Sort.cmp_desc.
    rewrite (Hkey x Hx), (Hkey y Hy). split.
    + intros -> ->. eexists. reflexivity.
    + intros [Hh|Hh]; rewrite Hh; destruct (has x), (has y); reflexivity.
  - apply (list_sort_missing (Sort.cmp_asc K) has); [|exact Hlen|exact Hmiss].
    intros x y Hx Hy. unfold Sort.cmp_asc.
    rewrite (Hkey x Hx), (Hkey y Hy). split.
    + intros -> ->. eexists. reflexivity.
    + intros [Hh|Hh]; rewrite Hh; destruct (has x), (has y); reflexivity.
Qed.

(** X9.  A list that is in key order already is returned as it is, so sorting
    a second time changes nothing. *)
Theorem sort_idempotent (R : list Element) (K : string) (reverse : bool) :
  (forall r, In r R -> one_key K r) ->
  exists R', Sort.sort R K reverse = Ok R'
             /\ Sort.sort R' K reverse = Ok R'.
Proof.
  intros Hkeys. destruct reverse.
  - destruct (sort_descending R K Hkeys) as (R' & ER & PR & SR).
    exists R'. split; [exact ER|]. unfold Sort.sort.
    destruct (1 <? length R')%nat; [|reflexivity].
    assert (Hk' : forall r, In r R' -> one_key K r).
    { intros r Hr. apply Hkeys. eapply Permutation_in; [symmetry; exact PR|exact Hr]. }
    apply (list_sort_sorted_fixed (Sort.cmp_desc K)
             (fun x y => String.compare (key_of K y) (key_of K x))).
    + intros x y Hx Hy. apply cmp_desc_ok; auto.
    + eapply StronglySorted_weaken; [|exact SR].
      intros x y Hx Hy (a & b & Fa & Fb & Hle). cbv beta in *.
      unfold key_of, Sort.sort_key. rewrite Fa, Fb. exact Hle.
  - destruct (sort_ascending R K Hkeys) as (R' & ER & PR & SR).
    exists R'. split; [exact ER|]. unfold Sort.sort.
    destruct (1 <? length R')%nat; [|reflexivity].
    assert (Hk' : forall r, In r R' -> one_key K r).
    { intros r Hr. apply Hkeys. eapply Permutation_in; [symmetry; exact PR|exact Hr]. }
    apply (list_sort_sorted_fixed (Sort.cmp_asc K)
             (fun x y => String.compare (key_of K x) (key_of K y))).
    + intros x y Hx Hy. apply cmp_asc_ok; auto.
    + eapply StronglySorted_weaken; [|exact SR].
      intros x y Hx Hy (a & b & Fa & Fb & Hle).
      unfold key_of, Sort.sort_key. rewrite Fa, Fb. exact Hle.
Qed.
End SortMore.


(** ** conglomerator.py *)

Section FileInputFacts.
Context `{Env}.
Import FileInput.

Lemma add_children_nil (d : Element) : add_children d [] = d.
Proof. destruct d. unfold add_children. cbn. rewrite app_nil_r. reflexivity. Qed.

Lemma add_children_cons (d tr : Element) (trs : list Element) :
  add_children (append_child d tr) trs = add_children d (tr :: trs).
Proof.
  unfold add_children, append_child. cbn. rewrite <- app_assoc. reflexivity.
Qed.

(** The loop of [getDocObj] over the file list. *)
Lemma read_all_spec (files : list string) (f : t) :
  match read_files files with
  | Ok trees =>
      read_all files f
      = (Ok tt, {| filelist := filelist f;
                   doc := option_map (fun d => add_children d trees) (doc f) |})
  | Raise e =>
      fst (read_all files f) = Raise e
      /\ filelist (snd (read_all files f)) = filelist f
  end.
Proof.
  revert f. induction files as [|file rest IH]; intros f; simpl.
  - destruct f as [fl [d|]]; cbn; [rewrite add_children_nil|]; reflexivity.
  - unfold mbind at 1. unfold lift_result at 1.
    destruct (read_xml (Some file)) as [tr|e]; cbn [rbind];
      [|split; reflexivity].
    unfold mbind at 1. cbn [doc_append modify].
    set (f1 := {| filelist := filelist f; doc := _ |}).
    specialize (IH f1).
    destruct (read_files rest) as [trs|e]; cbn [rbind].
    + rewrite IH. unfold f1. cbn. destruct (doc f) as [d|]; cbn;
        [rewrite add_children_cons|]; reflexivity.
    + exact IH.
Qed.

Lemma getDocObj_dir (path : string) (rootname : option string)
    (recursive : bool) (f : t) :
  let files := if recursive then filelist f ++ walk_xml path
               else glob_xml path in
  match read_files files with
  | Ok trees =>
      getDocObj (Some path) rootname recursive false f
      = (Ok (Some (add_children (new_Element rootname) trees)),
         {| filelist := files;
            doc := Some (add_children (new_Element rootname) trees) |})
  | Raise e =>
      fst (getDocObj (Some path) rootname recursive false f) = Raise e
      /\ filelist (snd (getDocObj (Some path) rootname recursive false f)) = files
  end.
Proof.
  cbv zeta.
  set (files := if recursive then filelist f ++ walk_xml path else glob_xml path).
  set (f1 := {| filelist := files; doc := Some (new_Element rootname) |}).
  assert (Hrun : getDocObj (Some path) rootname recursive false f
                 = (read_all files ;;; gets doc) f1).
  { unfold f1, files. destruct recursive; reflexivity. }
  rewrite Hrun. unfold mbind.
  pose proof (read_all_spec files f1) as Hread.
  destruct (read_files files) as [trees|e].
  - rewrite Hread. reflexivity.
  - destruct Hread as [Hr Hf].
    destruct (read_all files f1) as [[u|x] f2]; cbn in *;
      [discriminate|]. split; [congruence|exact Hf].
Qed.

(** X11.  [getDocObj] over a directory.  The files read are those the
    non-recursive search finds, or, in the recursive mode, the file list
    the object already holds followed by the files found.  When all
    can be read, the document is the new root with the documents read as
    its children, in that order; otherwise the exception of the first file
    that cannot be read leaves [getDocObj]. *)
Theorem getDocObj_files (path : string) (rootname : option string)
    (recursive : bool) (f : t) :
  let files := if recursive then filelist f ++ walk_xml path
               else glob_xml path in
  match read_files files with
  | Ok trees =>
      getDocObj (Some path) rootname recursive false f
      = (Ok (Some (add_children (new_Element rootname) trees)),
         {| filelist := files;
            doc := Some (add_children (new_Element rootname) trees) |})
  | Raise e =>
      fst (getDocObj (Some path) rootname recursive false f) = Raise e
      /\ filelist (snd (getDocObj (Some path) rootname recursive false f)) = files
  end.
Proof. exact (getDocObj_dir path rootname recursive f). Qed.

Lemma read_files_app (a b : list string) (ta tb : list Element) :
  read_files a = Ok ta -> read_files b = Ok tb ->
  read_files (a ++ b) = Ok (ta ++ tb).
Proof.
  revert ta. induction a as [|x a IH]; intros ta Ha Hb; simpl in *.
  - injection Ha as <-. exact Hb.
  - destruct (read_xml (Some x)) as [tr|e]; [|discriminate]. cbn [rbind] in *.
    destruct (read_files a) as [trs|e] eqn:Ea; [|discriminate].
    cbn [rbind] in Ha. injection Ha as <-.
    rewrite (IH trs eq_refl Hb). reflexivity.
Qed.

(** X12.  The recursive mode never clears the file list: a second recursive
    load on the same object reads the files of the first again, and its
    document holds the documents of both directories. *)
Theorem getDocObj_recursive_accumulates (p1 p2 : string)
    (r1 r2 : option string) (t1 t2 : list Element) :
  read_files (walk_xml p1) = Ok t1 ->
  read_files (walk_xml p2) = Ok t2 ->
  let f1 := snd (getDocObj (Some p1) r1 true false new) in
  fst (getDocObj (Some p1) r1 true false new)
  = Ok (Some (add_children (new_Element r1) t1))
  /\ fst (getDocObj (Some p2) r2 true false f1)
     = Ok (Some (add_children (new_Element r2) (t1 ++ t2)))
  /\ filelist (snd (getDocObj (Some p2) r2 true false f1))
     = walk_xml p1 ++ walk_xml p2.
Proof.
  intros H1 H2. cbv zeta.
  pose proof (getDocObj_dir p1 r1 true new) as G1. cbv zeta in G1.
  cbn [filelist new app] in G1. rewrite H1 in G1. rewrite G1.
  cbn [fst snd]. split; [reflexivity|].
  pose proof (getDocObj_dir p2 r2 true
                {| filelist := walk_xml p1;
                   doc := Some (add_children (new_Element r1) t1) |}) as G2.
  cbv zeta in G2. cbn [filelist] in G2.
  rewrite (read_files_app _ _ _ _ H1 H2) in G2. rewrite G2.
  split; reflexivity.
Qed.

Lemma getDocObj_one (path rootname : option string) (recursive : bool) (f : t) :
  match read_xml path with
  | Ok tr =>
      getDocObj path rootname recursive true f
      = (Ok (Some (add_children (new_Element rootname) [tr])),
         {| filelist := filelist f;
            doc := Some (add_children (new_Element rootname) [tr]) |})
  | Raise e =>
      getDocObj path rootname recursive true f
      = (Raise e, {| filelist := filelist f;
                     doc := Some (new_Element rootname) |})
  end.
Proof.
  unfold getDocObj, mbind, modify, lift_result, doc_append, gets. cbn.
  destruct (read_xml path) as [tr|e]; reflexivity.
Qed.

(** [getDocObj] over a URL: the file list is left as it is; when the
    source can be read the document is the new root with the one document
    read below it, otherwise the exception leaves [getDocObj]. *)
Theorem getDocObj_url (path rootname : option string) (recursive : bool) (f : t) :
  match read_xml path with
  | Ok tr =>
      getDocObj path rootname recursive true f
      = (Ok (Some (add_children (new_Element rootname) [tr])),
         {| filelist := filelist f;
            doc := Some (add_children (new_Element rootname) [tr]) |})
  | Raise e =>
      getDocObj path rootname recursive true f
      = (Raise e, {| filelist := filelist f;
                     doc := Some (new_Element rootname) |})
  end.
Proof. exact (getDocObj_one path rootname recursive f). Qed.
End FileInputFacts.


(** ** modelparser.py *)

Lemma substring_all (s t : string) :
  substring 0 (String.length s) (s +:+ t) = s.
Proof.
  induction s as [|c s IH]; simpl.
  - destruct t; reflexivity.
  - rewrite IH. reflexivity.
Qed.

Lemma substring_self (t : string) : substring 0 (String.length t) t = t.
Proof. induction t as [|c t IH]; simpl; [reflexivity|]. rewrite IH. reflexivity. Qed.

Lemma substring_rest (s t : string) :
  substring (String.length s) (String.length t) (s +:+ t) = t.
Proof.
  induction s as [|c s IH]; [apply substring_self|exact IH].
Qed.

Lemma length_append (s t : string) :
  String.length (s +:+ t) = (String.length s + String.length t)%nat.
Proof. induction s as [|c s IH]; simpl; [reflexivity|]. rewrite IH. reflexivity. Qed.

Lemma endswith_append (s t : string) : endswith (s +:+ t) t = true.
Proof.
  unfold endswith. rewrite length_append.
  destruct (Nat.leb_spec (String.length t) (String.length s + String.length t));
    [|lia].
  replace (String.length s + String.length t - String.length t)%nat
    with (String.length s) by lia.
  rewrite substring_rest. apply String.eqb_refl.
Qed.

Lemma drop_last_append (s : string) (c : ascii) :
  drop_last (s +:+ String c EmptyString) = s.
Proof.
  unfold drop_last. rewrite length_append. simpl.
  replace (String.length s + 1 - 1)%nat with (String.length s) by lia.
  apply substring_all.
Qed.

Section SourceFacts.
Context `{Env}.
Import ModelParser.

(** X13.  A malformed source declaration is passed over: no exception, no
    change of the interpreter, of the source lists or of the file list. *)
Theorem parseSource_passes_over (node : Element) (local : bool) (st : State) :
  passed_over node = true -> parseSource node local st = (Ok tt, st).
Proof.
  unfold passed_over, parseSource. intros Hp.
  destruct (str_is (attrib_get "type" (attrib node)) "files").
  - rewrite Hp. reflexivity.
  - apply negb_true_iff, orb_false_iff in Hp. destruct Hp as [-> ->].
    reflexivity.
Qed.

Lemma list_read_append_eq (loc : nat) (x : option Element) (w : World) :
  (loc < length (store w))%nat ->
  list_read loc (snd (list_append loc x w)) = list_read loc w ++ [x].
Proof.
  intros Hloc. unfold list_read, list_append, modify. cbn.
  rewrite list_lookup_alter_eq.
  destruct (lookup_lt_is_Some_2 _ _ Hloc) as [l El]. rewrite El. reflexivity.
Qed.

Lemma list_read_append_ne (loc i : nat) (x : option Element) (w : World) :
  i <> loc ->
  list_read i (snd (list_append loc x w)) = list_read i w.
Proof.
  intros Hne. unfold list_read, list_append, modify. cbn.
  rewrite list_lookup_alter_ne by congruence. reflexivity.
Qed.

(** X14.  A [url] source whose document can be read and is true is appended to
    one list, the global one or, for a local source, the local one; the
    list keeps what it held, every other list is as before, and the
    interpreter keeps the references to its two lists. *)
Theorem parseSource_url_registers (node : Element) (local : bool)
    (st : State) (tr : Element) :
  attrib_get "type" (attrib node) = Some "url" ->
  read_xml (attrib_get "path" (attrib node)) = Ok tr ->
  let source :=
    add_children (new_Element (attrib_get "name" (attrib node))) [tr] in
  let loc := if local then localsources (self st)
             else globalsources (self st) in
  is_true source = true ->
  (loc < length (store (world st)))%nat ->
  let st' := snd (parseSource node local st) in
  fst (parseSource node local st) = Ok tt
  /\ list_read loc (world st') = list_read loc (world st) ++ [Some source]
  /\ (forall i, i <> loc -> list_read i (world st') = list_read i (world st))
  /\ globalsources (self st') = globalsources (self st)
  /\ localsources (self st') = localsources (self st).
Proof.
  intros Hty Hread. cbv zeta. intros Htrue Hloc.
  pose proof (getDocObj_one (attrib_get "path" (attrib node))
                (attrib_get "name" (attrib node)) false
                (conglomerator (self st))) as Hdoc.
  rewrite Hread in Hdoc.
  assert (Hrun : parseSource node local st
                 = (Ok tt,
                    {| self := set_conglomerator
                                 {| FileInput.filelist :=
                                      FileInput.filelist (conglomerator (self st));
                                    FileInput.doc :=
                                      Some (add_children
                                              (new_Element
                                                 (attrib_get "name" (attrib node)))
                                              [tr]) |}
                                 (self st);
                       world := snd (list_append
                                       (if local then localsources (self st)
                                        else globalsources (self st))
                                       (Some (add_children
                                                (new_Element
                                                   (attrib_get "name" (attrib node)))
                                                [tr]))
                                       (world st)) |})).
  { unfold parseSource. rewrite Hty.
    cbn [str_is String.eqb Ascii.eqb Bool.eqb].
    unfold mbind, with_conglomerator, on_self, gets. rewrite Hdoc.
    cbn [fst snd self world globalsources localsources set_conglomerator].
    destruct local; cbn [negb append_if_true]; rewrite Htrue; reflexivity. }
  rewrite Hrun. cbn [fst snd self world].
  split; [reflexivity|].
  split; [apply list_read_append_eq; exact Hloc|].
  split; [intros i Hi; apply list_read_append_ne; exact Hi|].
  split; reflexivity.
Qed.
End SourceFacts.

Section HandlerEdges.
Context `{Env}.
Import ModelParser.

Lemma mbind_gets_self {A B} (f : t -> A) (k : A -> M State B) (st : State) :
  mbind (on_self (gets f)) k st
  = k (f (self st)) {| self := self st; world := world st |}.
Proof. reflexivity. Qed.

(** [strip_slash] takes one slash from the end of the path. *)
Lemma strip_slash_slash (p : string) :
  strip_slash (Some (p +:+ "/")) = Some p.
Proof.
  unfold strip_slash. cbn [or_empty].
  assert (Ht : truthy (Some (p +:+ "/")) = true) by (destruct p; reflexivity).
  rewrite Ht, endswith_append, drop_last_append. reflexivity.
Qed.

Lemma strip_slash_plain (p : string) :
  endswith p "/" = false -> strip_slash (Some p) = Some p.
Proof.
  intros Hp. unfold strip_slash. cbn [or_empty]. rewrite Hp.
  destruct (truthy (Some p)); reflexivity.
Qed.

(** X15.  A query whose path ends in a slash is evaluated as the query with
    the path without that slash: same result, same state. *)
Theorem parseQuery_trailing_slash (d : nat) (tg p : string)
    (attrs attrs' : list (string * string)) (tx tl : option string)
    (cs : list Element) (st : State) :
  attrib_get "path" attrs = Some (p +:+ "/") ->
  attrib_get "path" attrs' = Some p ->
  endswith p "/" = false ->
  parseQuery d (Elem tg attrs tx tl cs) st
  = parseQuery d (Elem tg attrs' tx tl cs) st.
Proof.
  intros Ha Ha' Hp. destruct d as [|d]; [reflexivity|].
  unfold parseQuery. cbn [run]. unfold parseQuery_body. cbn [attrib children].
  rewrite Ha, Ha', strip_slash_slash, (strip_slash_plain p Hp). reflexivity.
Qed.

(** X16.  Evaluated before any source is registered, and with no action type
    set, a [getnode] gives no output and changes nothing, whatever its
    path and its children. *)
Theorem parseGetNode_no_sources (d : nat) (node : Element) (st : State) :
  list_read (globalsources (self st)) (world st) = [] ->
  truthy (atype (self st)) = false ->
  parseGetNode (S d) node st = (Ok None, st).
Proof.
  destruct st as [p w]. cbn [self world]. intros Hnone Hatype.
  unfold parseGetNode. cbn [run]. unfold parseGetNode_body.
  unfold mbind at 1 2 3. unfold on_self at 1 2, on_world at 1, gets.
  cbn [self world fst snd]. rewrite Hnone. cbn [gather lift_result].
  unfold mbind at 1. cbn [lift_result].
  unfold mbind at 1. unfold transform.
  unfold mbind at 1 2. unfold on_self at 1 2, gets. cbn [self world fst snd].
  rewrite Hatype. cbn [mret fst snd].
  destruct (children node) as [|c cs]; reflexivity.
Qed.

(** X17.  Without a path of its own a [getnode] uses the query path: it is
    evaluated as the same node with the query path as its [path]
    attribute. *)
Theorem parseGetNode_path_fallback (d : nat) (tg q : string)
    (attrs : list (string * string)) (tx tl : option string)
    (cs : list Element) (st : State) :
  truthy (attrib_get "path" attrs) = false ->
  querypath (self st) = Some q ->
  q <> EmptyString ->
  parseGetNode d (Elem tg attrs tx tl cs) st
  = parseGetNode d (Elem tg (("path", q) :: attrs) tx tl cs) st.
Proof.
  intros Hno Hq Hne. destruct d as [|d]; [reflexivity|].
  unfold parseGetNode. cbn [run]. unfold parseGetNode_body.
  cbn [attrib children attrib_get String.eqb Ascii.eqb Bool.eqb].
  rewrite !(mbind_gets_self querypath). rewrite Hq, Hno.
  destruct q as [|a q]; [congruence|]. reflexivity.
Qed.

(** X18.  A [getcontent] with a path that stands in pass-through markup outside
    any [getnode] has no record to read: [parseXML] raises
    [AttributeError] at it, and the children after it are not evaluated. *)
Theorem parseXML_getcontent_without_record (d : nat) (tg : string)
    (attrs gattrs : list (string * string)) (tx tl gtx gtl : option string)
    (gcs rest : list Element) (st : State) :
  truthy (attrib_get "path" gattrs) = true ->
  parseXML (S d)
    (Elem tg attrs tx tl (Elem getcontentTAG gattrs gtx gtl gcs :: rest))
    None st
  = (Raise AttributeError, st).
Proof.
  intros Hpath. destruct st as [p w].
  unfold parseXML. cbn [run]. unfold parseXML_body. cbn [children].
  unfold mbind at 1 2. unfold on_self at 1 2, gets. cbn [fst snd self world].
  unfold mbind at 1. cbn [for_each].
  unfold mbind at 1. unfold parseXML_child at 1.
  cbn [tag_is tag String.eqb Ascii.eqb Bool.eqb sourceTAG queryTAG literalTAG
       actionTAG getnodeTAG getcontentTAG].
  unfold mbind at 1. unfold parseGetContent. cbn [attrib].
  rewrite Hpath. reflexivity.
Qed.
End HandlerEdges.

Section NestedModels.
Context `{Env}.
Import ModelParser.

(** A child that gives nothing and changes nothing can be left out. *)
Lemma for_each_drop {S A} (body : A -> M S (list string)) (x : A)
    (pre post : list A) (s : S) :
  (forall s0, body x s0 = (Ok [], s0)) ->
  for_each (pre ++ x :: post) body s = for_each (pre ++ post) body s.
Proof.
  intros Hx. revert s. induction pre as [|y pre IH]; intros s; simpl.
  - unfold mbind. rewrite Hx.
    destruct (for_each post body s) as [[ds|e] s1]; reflexivity.
  - unfold mbind. destruct (body y s) as [[dy|e] s1]; [|reflexivity].
    rewrite IH. reflexivity.
Qed.

Lemma parseModel_drop_child (d : nat) (tg : string)
    (attrs : list (string * string)) (tx tl : option string)
    (x : Element) (pre post : list Element) (st : State) :
  (forall s0, parseModel_child (run d) x s0 = (Ok [], s0)) ->
  parseModel (S d) (Elem tg attrs tx tl (pre ++ x :: post)) st
  = parseModel (S d) (Elem tg attrs tx tl (pre ++ post)) st.
Proof.
  intros Hx. unfold parseModel. cbn [run]. unfold parseModel_body.
  unfold tag_is. cbn [tag children attrib tail].
  destruct (String.eqb tg modelTAG); cbn [negb]; [|reflexivity].
  unfold mbind at 1 3. rewrite (for_each_drop _ x pre post st Hx). reflexivity.
Qed.

(** X19.  In [parseModel] a nested model without a [path] attribute is
    evaluated only when it has no children: one that has children is left
    out, the document gives the result and the state it gives without
    that child. *)
Theorem parseModel_skips_inline_model (d : nat) (tg : string)
    (attrs nattrs : list (string * string)) (tx tl ntx ntl : option string)
    (c : Element) (cs pre post : list Element) (st : State) :
  truthy (attrib_get "path" nattrs) = false ->
  parseModel d
    (Elem tg attrs tx tl (pre ++ Elem modelTAG nattrs ntx ntl (c :: cs) :: post)) st
  = parseModel d (Elem tg attrs tx tl (pre ++ post)) st.
Proof.
  intros Hpath. destruct d as [|d]; [reflexivity|].
  apply parseModel_drop_child. intros s0. unfold parseModel_child.
  cbn [tag_is tag attrib children String.eqb Ascii.eqb Bool.eqb
       sourceTAG queryTAG literalTAG modelTAG].
  rewrite Hpath. reflexivity.
Qed.

(** X20.  A nested model whose file cannot be loaded is passed over: the
    exception is caught, nothing is added to the output and the state is
    as before. *)
Theorem parseModel_load_failure_swallowed (d : nat) (tg : string)
    (attrs nattrs : list (string * string)) (tx tl ntx ntl : option string)
    (ncs pre post : list Element) (e : exn) (st : State) :
  truthy (attrib_get "path" nattrs) = true ->
  parse (or_empty (attrib_get "path" nattrs)) = Raise e ->
  parseModel d
    (Elem tg attrs tx tl (pre ++ Elem modelTAG nattrs ntx ntl ncs :: post)) st
  = parseModel d (Elem tg attrs tx tl (pre ++ post)) st.
Proof.
  intros Hpath Hload. destruct d as [|d]; [reflexivity|].
  apply parseModel_drop_child. intros s0. unfold parseModel_child.
  cbn [tag_is tag attrib children String.eqb Ascii.eqb Bool.eqb
       sourceTAG queryTAG literalTAG modelTAG].
  rewrite Hpath. unfold try_except, mbind, lift_result. rewrite Hload.
  reflexivity.
Qed.




(** X22.  When the root has an [output] attribute, the text written to that
    path is the text [parseModel] returns. *)
Theorem parseModel_writes_result (d : nat) (doc : Element) (st st' : State)
    (s file : string) :
  attrib_get "output" (attrib doc) = Some file ->
  file <> EmptyString ->
  parseModel (S d) doc st = (Ok (Some s), st') ->
  head (files (world st')) = Some (file, s).
Proof.
  intros Hout Hfile. unfold parseModel. cbn [run]. unfold parseModel_body.
  destruct (negb (tag_is doc modelTAG)); [discriminate|].
  rewrite Hout. destruct file as [|a file]; [congruence|].
  cbn [truthy or_empty]. intros Hrun.
  bind_inv Hrun. unfold mbind, on_world, write_file, modify, mret in Hrun.
  cbn in Hrun. injection Hrun as <- <-. reflexivity.
Qed.
End NestedModels.


(** ** What evaluation keeps: the registered sources *)

Lemma grows_refl (w : World) : grows w w.
Proof. intros i l Hl. exists []. rewrite app_nil_r. exact Hl. Qed.

Lemma grows_trans (w1 w2 w3 : World) : grows w1 w2 -> grows w2 w3 -> grows w1 w3.
Proof.
  intros H12 H23 i l Hl. destruct (H12 i l Hl) as (m1 & E1).
  destruct (H23 i _ E1) as (m2 & E2). exists (m1 ++ m2).
  rewrite app_assoc. exact E2.
Qed.

Section SteadyFacts.
Context `{Env}.
Import ModelParser.

Lemma steady_here {A} (m : M State A) :
  (forall st, exists r, m st = (r, st)) -> steady m.
Proof.
  intros Hm st r st' Hr. destruct (Hm st) as (r0 & E0). rewrite E0 in Hr.
  injection Hr as _ <-. split; [apply grows_refl|reflexivity].
Qed.

Lemma steady_ret {A} (a : A) : steady (mret a).
Proof. apply steady_here. intros st. eexists. reflexivity. Qed.

Lemma steady_raise {A} (e : exn) : steady (@mraise State A e).
Proof. apply steady_here. intros st. eexists. reflexivity. Qed.

Lemma steady_lift {A} (x : result A) : steady (@lift_result State A x).
Proof. apply steady_here. intros st. eexists. reflexivity. Qed.

Lemma steady_bind {A B} (m : M State A) (k : A -> M State B) :
  steady m -> (forall a, steady (k a)) -> steady (mbind m k).
Proof.
  intros Hm Hk st r st' Hr. unfold mbind in Hr.
  destruct (m st) as [[a|e] s1] eqn:Em.
  - destruct (Hm _ _ _ Em) as [G1 R1]. destruct (Hk a _ _ _ Hr) as [G2 R2].
    split; [eapply grows_trans; eassumption|congruence].
  - injection Hr as _ <-. exact (Hm _ _ _ Em).
Qed.

Lemma steady_try {A} (m h : M State A) :
  steady m -> steady h -> steady (try_except m h).
Proof.
  intros Hm Hh st r st' Hr. unfold try_except in Hr.
  destruct (m st) as [[a|e] s1] eqn:Em.
  - injection Hr as _ <-. exact (Hm _ _ _ Em).
  - destruct (Hm _ _ _ Em) as [G1 R1]. destruct (Hh _ _ _ Hr) as [G2 R2].
    split; [eapply grows_trans; eassumption|congruence].
Qed.

Lemma steady_for_each {A} (l : list A) (body : A -> M State (list string)) :
  (forall x, steady (body x)) -> steady (for_each l body).
Proof.
  intros Hbody. induction l as [|x l IH]; simpl.
  - apply steady_ret.
  - apply steady_bind; [apply Hbody|]. intros d.
    apply steady_bind; [exact IH|]. intros ds. apply steady_ret.
Qed.

Lemma steady_gets {A} (f : t -> A) : steady (on_self (gets f)).
Proof.
  intros [p w] r st' Hr. injection Hr as _ <-. split; [apply grows_refl|reflexivity].
Qed.

Lemma steady_gets_world {A} (f : World -> A) : steady (on_world (gets f)).
Proof.
  intros [p w] r st' Hr. injection Hr as _ <-. split; [apply grows_refl|reflexivity].
Qed.

Lemma steady_modify (f : t -> t) :
  (forall p, globalsources (f p) = globalsources p) ->
  steady (on_self (modify f)).
Proof.
  intros Hf [p w] r st' Hr. injection Hr as _ <-.
  split; [apply grows_refl|apply Hf].
Qed.

Lemma steady_with_runner {A} (m : M Executor.t A) : steady (with_runner m).
Proof.
  intros [p w] r st' Hr. unfold with_runner, on_self in Hr. simpl in Hr.
  destruct (m (runner p)) as [x e]. injection Hr as _ <-.
  split; [apply grows_refl|reflexivity].
Qed.

Lemma steady_with_conglomerator {A} (m : M FileInput.t A) :
  steady (with_conglomerator m).
Proof.
  intros [p w] r st' Hr. unfold with_conglomerator, on_self in Hr. simpl in Hr.
  destruct (m (conglomerator p)) as [x e]. injection Hr as _ <-.
  split; [apply grows_refl|reflexivity].
Qed.

Lemma steady_write_file (path data : string) :
  steady (on_world (write_file path data)).
Proof.
  intros [p w] r st' Hr. injection Hr as _ <-.
  split; [|reflexivity].
  intros i l Hl. exists []. cbn. rewrite app_nil_r. exact Hl.
Qed.

Lemma grows_new_list (w : World) : grows w (snd (new_list w)).
Proof.
  intros i l Hl. exists []. cbn. rewrite app_nil_r.
  rewrite lookup_app_l; [exact Hl|].
  apply lookup_lt_is_Some_1. eexists. exact Hl.
Qed.

Lemma grows_list_append (loc : nat) (x : option Element) (w : World) :
  grows w (snd (list_append loc x w)).
Proof.
  intros i l Hl. cbn. destruct (decide (i = loc)) as [->|Hne].
  - exists [x]. rewrite list_lookup_alter_eq, Hl. reflexivity.
  - exists []. rewrite list_lookup_alter_ne by congruence.
    rewrite app_nil_r. exact Hl.
Qed.

Lemma steady_new_list : steady (on_world new_list).
Proof.
  intros [p w] r st' Hr. injection Hr as _ <-.
  split; [apply grows_new_list|reflexivity].
Qed.

Lemma steady_list_append (loc : nat) (x : option Element) :
  steady (on_world (list_append loc x)).
Proof.
  intros [p w] r st' Hr. injection Hr as _ <-.
  split; [apply (grows_list_append loc x w)|reflexivity].
Qed.

Lemma steady_append_if_true (loc : nat) (source : option Element) :
  steady (append_if_true loc source).
Proof.
  unfold append_if_true. destruct source as [s|]; [|apply steady_ret].
  destruct (is_true s); [apply steady_list_append|apply steady_ret].
Qed.

(** A method call on another interpreter: the lists only grow, and this
    interpreter is the one it was. *)
Lemma steady_on_parser {A} (q : t) (m : M State A) :
  (forall st r st', m st = (r, st') -> grows (world st) (world st')) ->
  steady (on_parser q m).
Proof.
  intros Hm [p w] r st' Hr. unfold on_parser in Hr. cbn [self world] in Hr.
  destruct (m {| self := q; world := w |}) as [[a|e] [q1 w1]] eqn:Em;
    pose proof (Hm _ _ _ Em) as G; injection Hr as _ <-;
    split; [exact G|reflexivity|exact G|reflexivity].
Qed.

Lemma grows_reset (keepsources : bool) (st st' : State) (r : result unit) :
  reset keepsources st = (r, st') -> grows (world st) (world st').
Proof.
  destruct st as [p w]. destruct keepsources; intros Hr; injection Hr as _ <-.
  - apply grows_refl.
  - cbn. eapply grows_trans; [apply grows_new_list|]. apply grows_new_list.
Qed.

Lemma grows_init (g l : nat) (w w' : World) (r : result t) :
  __init__ g l w = (r, w') -> grows w w'.
Proof.
  rewrite init_makes_fresh_lists. intros Hr. injection Hr as _ <-.
  eapply grows_trans; [apply grows_new_list|]. apply grows_new_list.
Qed.

Lemma steady_init (g l : nat) : steady (on_world (__init__ g l)).
Proof.
  intros [p w] r st' Hr. unfold on_world in Hr. cbn [self world] in Hr.
  destruct (__init__ g l w) as [x w1] eqn:Ei. injection Hr as _ <-.
  split; [exact (grows_init _ _ _ _ _ Ei)|reflexivity].
Qed.

Section Bodies.
Variable rec : call -> M State (option string).
Hypothesis rec_steady : forall c, steady (rec c).

Ltac steady_step :=
  first
    [ apply steady_ret
    | apply steady_raise
    | apply steady_lift
    | apply rec_steady
    | apply steady_gets
    | apply steady_gets_world
    | apply steady_with_runner
    | apply steady_with_conglomerator
    | apply steady_write_file
    | apply steady_new_list
    | apply steady_list_append
    | apply steady_append_if_true
    | apply steady_init
    | (apply steady_on_parser;
       let Hrec := fresh "Hrec" in
       intros ? ? ? Hrec;
       first [ eapply grows_reset; exact Hrec
             | exact (proj1 (rec_steady _ _ _ _ Hrec)) ])
    | (apply steady_modify; intros ?; reflexivity)
    | apply steady_for_each; intros ?
    | apply steady_try
    | (apply steady_bind; [|intros ?]) ].

Ltac steady_auto :=
  repeat first
    [ steady_step
    | match goal with
      | |- steady (if ?b then _ else _) => destruct b
      | |- steady (match ?x with _ => _ end) => destruct x
      end ].

Lemma steady_parseSource (node : Element) (local : bool) :
  steady (parseSource node local).
Proof. unfold parseSource. steady_auto. Qed.

Lemma steady_child_parseModel (doc : Element) :
  steady (child_parseModel rec doc).
Proof. unfold child_parseModel. steady_auto. Qed.

Lemma steady_parseXML_body (node : Element) (item : option Element) :
  steady (parseXML_body rec node item).
Proof.
  unfold parseXML_body, parseXML_child.
  pose proof steady_parseSource. pose proof steady_child_parseModel.
  steady_auto; auto.
Qed.

Lemma steady_parseGetNode_body (node : Element) :
  steady (parseGetNode_body rec node).
Proof. unfold parseGetNode_body, parseGetNode_child, transform, level_up, level_down. steady_auto. Qed.

Lemma steady_parseAction_body (node : Element) :
  steady (parseAction_body rec node).
Proof. unfold parseAction_body, parseAction_child. steady_auto. Qed.

Lemma steady_parseQuery_body (node : Element) :
  steady (parseQuery_body rec node).
Proof.
  unfold parseQuery_body, parseQuery_child, load_global, level_up, level_down.
  steady_auto.
Qed.

Lemma steady_parseModel_body (doc : Element) :
  steady (parseModel_body rec doc).
Proof.
  unfold parseModel_body, parseModel_child, level_up, level_down.
  pose proof steady_parseSource. pose proof steady_child_parseModel.
  steady_auto; auto.
Qed.
End Bodies.

Lemma steady_run (d : nat) (c : call) : steady (run d c).
Proof.
  revert c. induction d as [|d IH]; intros c; simpl.
  - apply steady_raise.
  - destruct c.
    + apply steady_parseXML_body. exact IH.
    + apply steady_parseQuery_body. exact IH.
    + apply steady_parseAction_body. exact IH.
    + apply steady_parseGetNode_body. exact IH.
    + apply steady_parseModel_body. exact IH.
Qed.

(** X25.  No handler ever removes a source or puts one in front of another:
    however the evaluation ends, at whatever depth, the interpreter still
    refers to the same global list, and every list of the store holds
    what it held, in the same order, with what was registered since
    after it. *)
Theorem sources_only_grow (d : nat) (c : call) (st st' : State)
    (r : result (option string)) :
  run d c st = (r, st') ->
  globalsources (self st') = globalsources (self st)
  /\ forall i, exists more,
       list_read i (world st') = list_read i (world st) ++ more.
Proof.
  intros Hrun. destruct (steady_run d c st r st' Hrun) as [Hg Href].
  split; [exact Href|]. intros i. unfold list_read.
  destruct (store (world st) !! i) as [l|] eqn:El.
  - destruct (Hg i l El) as (more & Em). exists more. rewrite Em. reflexivity.
  - eexists. reflexivity.
Qed.
End SteadyFacts.

(** ** What evaluation keeps: the nesting level *)

Section LevelFacts.
Context `{Env}.
Import ModelParser.

Lemma restores_of_keeps {A} (m : M State A) : keeps_level m -> restores_level m.
Proof. intros Hm st a st' Hr. exact (Hm _ _ _ Hr). Qed.

Lemma keeps_here {A} (m : M State A) :
  (forall st, exists r w, m st = (r, {| self := self st; world := w |})) ->
  keeps_level m.
Proof.
  intros Hm st r st' Hr. destruct (Hm st) as (r0 & w & E0). rewrite E0 in Hr.
  injection Hr as _ <-. reflexivity.
Qed.

Lemma keeps_ret {A} (a : A) : keeps_level (mret a).
Proof. intros st r st' Hr. injection Hr as _ <-. reflexivity. Qed.

Lemma keeps_raise {A} (e : exn) : keeps_level (@mraise State A e).
Proof. intros st r st' Hr. injection Hr as _ <-. reflexivity. Qed.

Lemma keeps_lift {A} (x : result A) : keeps_level (@lift_result State A x).
Proof. intros st r st' Hr. injection Hr as _ <-. reflexivity. Qed.

Lemma keeps_bind {A B} (m : M State A) (k : A -> M State B) :
  keeps_level m -> (forall a, keeps_level (k a)) -> keeps_level (mbind m k).
Proof.
  intros Hm Hk st r st' Hr. unfold mbind in Hr.
  destruct (m st) as [[a|e] s1] eqn:Em.
  - rewrite (Hk a _ _ _ Hr). exact (Hm _ _ _ Em).
  - injection Hr as _ <-. exact (Hm _ _ _ Em).
Qed.

Lemma keeps_try {A} (m h : M State A) :
  keeps_level m -> keeps_level h -> keeps_level (try_except m h).
Proof.
  intros Hm Hh st r st' Hr. unfold try_except in Hr.
  destruct (m st) as [[a|e] s1] eqn:Em.
  - injection Hr as _ <-. exact (Hm _ _ _ Em).
  - rewrite (Hh _ _ _ Hr). exact (Hm _ _ _ Em).
Qed.

Lemma keeps_on_world {A} (m : M World A) : keeps_level (on_world m).
Proof.
  apply keeps_here. intros [p w]. unfold on_world. cbn.
  destruct (m w) as [r w1]. eexists _, _. reflexivity.
Qed.

Lemma keeps_on_parser {A} (q : t) (m : M State A) : keeps_level (on_parser q m).
Proof.
  apply keeps_here. intros [p w]. unfold on_parser. cbn.
  destruct (m {| self := q; world := w |}) as [[a|e] [q1 w1]];
    eexists _, _; reflexivity.
Qed.

Lemma keeps_gets {A} (f : t -> A) : keeps_level (on_self (gets f)).
Proof. intros [p w] r st' Hr. injection Hr as _ <-. reflexivity. Qed.

Lemma keeps_modify (f : t -> t) :
  (forall p, level (f p) = level p) -> keeps_level (on_self (modify f)).
Proof. intros Hf [p w] r st' Hr. injection Hr as _ <-. apply Hf. Qed.

Lemma keeps_with_runner {A} (m : M Executor.t A) : keeps_level (with_runner m).
Proof.
  intros [p w] r st' Hr. unfold with_runner, on_self in Hr. simpl in Hr.
  destruct (m (runner p)) as [x e]. injection Hr as _ <-. reflexivity.
Qed.

Lemma keeps_with_conglomerator {A} (m : M FileInput.t A) :
  keeps_level (with_conglomerator m).
Proof.
  intros [p w] r st' Hr. unfold with_conglomerator, on_self in Hr. simpl in Hr.
  destruct (m (conglomerator p)) as [x e]. injection Hr as _ <-. reflexivity.
Qed.

Ltac keeps_auto :=
  repeat first
    [ apply keeps_ret
    | apply keeps_raise
    | apply keeps_lift
    | apply keeps_gets
    | apply keeps_on_world
    | apply keeps_on_parser
    | apply keeps_with_runner
    | apply keeps_with_conglomerator
    | (apply keeps_modify; intros ?; reflexivity)
    | apply keeps_try
    | (apply keeps_bind; [|intros ?])
    | match goal with
      | |- keeps_level (if ?b then _ else _) => destruct b
      | |- keeps_level (match ?x with _ => _ end) => destruct x
      end ].

Lemma keeps_parseSource (node : Element) (local : bool) :
  keeps_level (parseSource node local).
Proof. unfold parseSource, append_if_true. keeps_auto. Qed.

Lemma keeps_transform (itemlist : list Element) : keeps_level (transform itemlist).
Proof. unfold transform. keeps_auto. Qed.

Lemma keeps_child_parseModel (rec : call -> M State (option string))
    (doc : Element) :
  keeps_level (child_parseModel rec doc).
Proof. unfold child_parseModel. keeps_auto. Qed.

Lemma restores_bind {A B} (m : M State A) (k : A -> M State B) :
  restores_level m -> (forall a, restores_level (k a)) ->
  restores_level (mbind m k).
Proof.
  intros Hm Hk st b st' Hr. apply mbind_ok in Hr.
  destruct Hr as (a & s1 & Em & Ek).
  rewrite (Hk a _ _ _ Ek). exact (Hm _ _ _ Em).
Qed.

Lemma restores_for_each {A} (l : list A) (body : A -> M State (list string)) :
  (forall x, restores_level (body x)) -> restores_level (for_each l body).
Proof.
  intros Hbody. induction l as [|x l IH]; simpl.
  - apply restores_of_keeps, keeps_ret.
  - apply restores_bind; [apply Hbody|]. intros d.
    apply restores_bind; [exact IH|]. intros ds.
    apply restores_of_keeps, keeps_ret.
Qed.

(** [self.level+=1], a call that restores the level, [self.level-=1]. *)
Lemma restores_bracket {A B} (m : M State A) (f : A -> B) :
  restores_level m ->
  restores_level (level_up ;;; data <- m ;; level_down ;;; mret (f data)).
Proof.
  intros Hm [p w] b st' Hr.
  unfold mbind at 1 in Hr. cbn [level_up on_self modify self world] in Hr.
  apply mbind_ok in Hr. destruct Hr as (a & [p1 w1] & Em & Hr).
  pose proof (Hm _ _ _ Em) as Hl. cbn in Hl.
  cbn in Hr. injection Hr as _ <-. cbn. rewrite Hl. lia.
Qed.

Section Bodies.
Variable rec : call -> M State (option string).
Hypothesis rec_restores : forall c, restores_level (rec c).

Ltac restores_auto :=
  repeat first
    [ (apply restores_of_keeps;
       solve [ apply keeps_parseSource
             | apply keeps_transform
             | (apply keeps_try; [|apply keeps_ret]);
               repeat (apply keeps_bind; [|intros ?]);
               solve [ apply keeps_child_parseModel | keeps_auto ]
             | keeps_auto ])
    | apply rec_restores
    | apply restores_bracket
    | apply restores_for_each; intros ?
    | (apply restores_bind; [|intros ?])
    | match goal with
      | |- restores_level (if ?b then _ else _) => destruct b
      | |- restores_level (match ?x with _ => _ end) => destruct x
      end ].

Lemma restores_parseXML_body (node : Element) (item : option Element) :
  restores_level (parseXML_body rec node item).
Proof. unfold parseXML_body, parseXML_child. restores_auto. Qed.

Lemma restores_parseGetNode_body (node : Element) :
  restores_level (parseGetNode_body rec node).
Proof. unfold parseGetNode_body, parseGetNode_child. restores_auto. Qed.

Lemma restores_parseAction_body (node : Element) :
  restores_level (parseAction_body rec node).
Proof. unfold parseAction_body, parseAction_child. restores_auto. Qed.

Lemma restores_parseQuery_body (node : Element) :
  restores_level (parseQuery_body rec node).
Proof. unfold parseQuery_body, parseQuery_child, load_global. restores_auto. Qed.

Lemma restores_parseModel_body (doc : Element) :
  restores_level (parseModel_body rec doc).
Proof. unfold parseModel_body, parseModel_child. restores_auto. Qed.
End Bodies.

Lemma restores_run (d : nat) (c : call) : restores_level (run d c).
Proof.
  revert c. induction d as [|d IH]; intros c; simpl.
  - apply restores_of_keeps, keeps_raise.
  - destruct c.
    + apply restores_parseXML_body. exact IH.
    + apply restores_parseQuery_body. exact IH.
    + apply restores_parseAction_body. exact IH.
    + apply restores_parseGetNode_body. exact IH.
    + apply restores_parseModel_body. exact IH.
Qed.

(** X26.  Every handler that returns leaves the nesting level, which sets the
    indentation of pass-through markup, as it found it. *)
Theorem level_restored (d : nat) (c : call) (st st' : State)
    (r : option string) :
  run d c st = (Ok r, st') -> level (self st') = level (self st).
Proof. apply restores_run. Qed.
End LevelFacts.


(** ** Literals and the transform *)

Lemma append_empty_r (s : string) : s +:+ EmptyString = s.
Proof.
  induction s as [|c s IH]; [reflexivity|].
  change (String c (s +:+ EmptyString) = String c s). f_equal. exact IH.
Qed.

Lemma join_cons (x : string) (l : list string) : join (x :: l) = x +:+ join l.
Proof.
  unfold join. destruct l as [|y l]; simpl.
  - rewrite append_empty_r. reflexivity.
  - reflexivity.
Qed.

Section LiteralFacts.
Context `{Env}.
Import ModelParser.

(** What the loop of [parseModel] gives for literals that hold text only:
    the texts that are not empty, in document order. *)
Lemma for_each_literals (rec : call -> M State (option string))
    (texts : list string) (st : State) :
  for_each (map (fun tx => Elem literalTAG [] (Some tx) None []) texts)
    (parseModel_child rec) st
  = (Ok (List.filter (fun tx => negb (String.eqb tx EmptyString)) texts), st).
Proof.
  induction texts as [|tx texts IH]; [reflexivity|].
  cbn [map for_each]. unfold mbind at 1.
  assert (Hc : parseModel_child rec (Elem literalTAG [] (Some tx) None []) st
               = (Ok (if negb (String.eqb tx EmptyString) then [tx] else []), st)).
  { unfold parseModel_child, parseLiteral.
    cbn [tag_is tag text children String.eqb Ascii.eqb Bool.eqb
         sourceTAG queryTAG literalTAG map].
    destruct tx as [|a tx]; [reflexivity|].
    cbn [truthy or_empty app]. rewrite join_cons. cbn [join String.concat].
    rewrite append_empty_r. reflexivity. }
  rewrite Hc. unfold mbind at 1. rewrite IH. cbn [mret List.filter].
  destruct (negb (String.eqb tx EmptyString)); reflexivity.
Qed.

Lemma join_filter_nonempty (texts : list string) :
  join (List.filter (fun tx => negb (String.eqb tx EmptyString)) texts)
  = join texts.
Proof.
  induction texts as [|tx texts IH]; [reflexivity|].
  cbn [List.filter]. rewrite join_cons. destruct tx as [|a tx].
  - cbn. exact IH.
  - cbn [String.eqb negb]. rewrite join_cons, IH. reflexivity.
Qed.

(** X23.  Literals are written out as they are, in document order: a model of
    literals that hold text only returns the texts, one after the other,
    or the fixed sentence when all of them are empty; the interpreter and
    the store are as before. *)
Theorem parseModel_literals (d : nat) (texts : list string) (st : State) :
  parseModel (S d)
    (Elem modelTAG [] None None
       (map (fun tx => Elem literalTAG [] (Some tx) None []) texts)) st
  = (Ok (Some (match join texts with
               | EmptyString => sentinel
               | String _ _ => join texts
               end)), st).
Proof.
  unfold parseModel. cbn [run]. unfold parseModel_body.
  cbn [tag_is tag children attrib tail String.eqb Ascii.eqb Bool.eqb modelTAG
       negb attrib_get truthy].
  unfold mbind at 1. rewrite for_each_literals. rewrite app_nil_r.
  cbn [mbind mret].
  set (out := List.filter _ texts).
  assert (Hjoin : join out = join texts) by apply join_filter_nonempty.
  assert (Hall : Forall nonempty out).
  { apply List.Forall_forall. intros x Hx. apply List.filter_In in Hx.
    destruct Hx as [_ Hx]. unfold nonempty. intros ->. discriminate. }
  unfold mbind. cbn.
  destruct out as [|x out'] eqn:Eo.
  - rewrite <- Hjoin. reflexivity.
  - rewrite Hjoin.
    pose proof (join_nonempty (x :: out') ltac:(discriminate) Hall) as Hne.
    rewrite Hjoin in Hne. unfold nonempty in Hne.
    destruct (join texts); [congruence|reflexivity].
Qed.

(** X24.  Without a sort key, an action type other than [custom] leaves the
    records of a [getnode] as they were found, and runs nothing. *)
Theorem transform_without_key (itemlist : list Element) (st : State) :
  truthy (skey (self st)) = false ->
  str_is (atype (self st)) "custom" = false ->
  transform itemlist st = (Ok ([], itemlist), st).
Proof.
  destruct st as [p w]. cbn [self]. intros Hkey Hcustom.
  unfold transform. rewrite !mbind_gets_self. cbn [self world].
  rewrite Hkey, Hcustom.
  destruct (truthy (atype p)); [|reflexivity].
  destruct (endswith (or_empty (atype p)) "sort"); reflexivity.
Qed.
End LiteralFacts.

(** ** The further properties on inputs *)

Section FurtherRuns.
Import ModelParser Example Inputs.

Lemma executor_inv_preserved_witness :
  (forall n, executor_inv (snd (Executor.setName n (@Executor.new env))))
  /\ (forall tr, executor_inv (snd (Executor.setTree tr (@Executor.new env))))
  /\ (forall c, executor_inv (snd (Executor.setCode c (@Executor.new env))))
  /\ executor_inv (snd (Executor.runAction (@Executor.new env)))
  /\ executor_inv (snd (Executor.runSource (@Executor.new env))).
Proof.
  apply (@executor_inv_preserved env). apply executor_inv_new.
Defined.

Lemma setCode_forces_compile_witness :
  let e1 := snd (Executor.setCode (Some script_lf) (@Executor.new env)) in
  Cache.contains (Executor.key e1) (Executor.execCache e1) = false
  /\ Executor.n_compile (snd (Executor.runAction e1)) = 1%nat
  /\ Executor.n_compile (snd (Executor.runSource e1)) = 1%nat.
Proof.
  apply (@setCode_forces_compile env script_lf Executor.new).
  - discriminate.
  - apply executor_inv_new.
Defined.

Lemma runSource_twice_raises_witness :
  let e0 := snd ((Executor.setCode (Some script_lf) ;;; Executor.setTree None)
                   (@Executor.new env)) in
  let e1 := snd (Executor.runSource e0) in
  Executor.n_compile e1 = 1%nat /\ Executor.n_exec e1 = 1%nat
  /\ Executor.runSource e1 = (Raise NameError, e1).
Proof.
  apply (@runSource_twice_raises env script_lf (replace_crlf script_lf)
           None Executor.new).
  - discriminate.
  - reflexivity.
  - intros i _. apply lookup_empty.
Defined.

Lemma compile_failure_not_cached_witness :
  let e0 := snd ((Executor.setCode (Some ")") ;;; Executor.setTree None)
                   (@Executor.new picky)) in
  let r1 := Executor.runAction e0 in
  let r2 := Executor.runAction (snd r1) in
  fst r1 = Raise SyntaxError /\ fst r2 = Raise SyntaxError
  /\ Executor.n_compile (snd r2) = 2%nat
  /\ Executor.n_exec (snd r2) = 0%nat
  /\ Executor.execCache (snd r2) = Executor.execCache (@Executor.new picky).
Proof.
  apply (@compile_failure_not_cached picky ")" SyntaxError None Executor.new).
  - discriminate.
  - reflexivity.
  - intros i _. apply lookup_empty.
Defined.

Lemma setCode_plain_witness :
  Executor.code (snd (Executor.setCode (Some script_lf) (@Executor.new env)))
  = Some script_lf
  /\ option_map md5_text
       (Executor.key (snd (Executor.setCode (Some script_lf) (@Executor.new env))))
     = Some script_lf.
Proof.
  apply (@setCode_plain env script_lf Executor.new); [discriminate|reflexivity].
Defined.

Lemma tied_keys : forall r, In r tied -> @one_key env "title" r.
Proof. intros r [<-|[<-|[<-|[]]]]; eexists _, _; split; reflexivity. Qed.

Lemma sort_stable_witness :
  exists R', @Sort.sort env tied "title" true = Ok R'
             /\ List.filter (fun r => String.eqb (@key_of env "title" r) "b") R'
                = List.filter (fun r => String.eqb (@key_of env "title" r) "b") tied.
Proof. apply (@sort_stable env tied "title" true "b"). exact tied_keys. Defined.

(** In the descending sort the two records with the key [b] keep their
    order. *)
Lemma sort_tied :
  @Sort.sort env tied "title" true = Ok [titled "b"; titled "B"; titled "a"]
  /\ @Sort.sort env tied "title" false = Ok [titled "a"; titled "b"; titled "B"].
Proof. split; reflexivity. Qed.

Lemma sort_idempotent_witness :
  exists R', @Sort.sort env tied "title" false = Ok R'
             /\ @Sort.sort env R' "title" false = Ok R'.
Proof. apply (@sort_idempotent env tied "title" false). exact tied_keys. Defined.

Lemma sort_missing_key_witness :
  ((2 <= length [titled "a"; untitled])%nat ->
   @Sort.sort env [titled "a"; untitled] "title" false = Raise AttributeError)
  /\ ((length [titled "a"; untitled] <= 1)%nat ->
      @Sort.sort env [titled "a"; untitled] "title" false
      = Ok [titled "a"; untitled]).
Proof.
  apply (@sort_missing_key env [titled "a"; untitled] "title" false).
  - intros r [<-|[<-|[]]]; eexists; reflexivity.
  - exists untitled. split; [right; left; reflexivity|reflexivity].
Defined.

Lemma getDocObj_recursive_accumulates_witness :
  let f1 := snd (@FileInput.getDocObj env2 (Some "a") (Some "blog") true false
                   FileInput.new) in
  fst (@FileInput.getDocObj env2 (Some "a") (Some "blog") true false FileInput.new)
  = Ok (Some (add_children (ETree.new_Element (Some "blog")) [post "1"]))
  /\ fst (@FileInput.getDocObj env2 (Some "b") (Some "more") true false f1)
     = Ok (Some (add_children (ETree.new_Element (Some "more"))
                   ([post "1"] ++ [post "2"])))
  /\ FileInput.filelist
       (snd (@FileInput.getDocObj env2 (Some "b") (Some "more") true false f1))
     = @walk_xml env2 "a" ++ @walk_xml env2 "b".
Proof.
  apply (@getDocObj_recursive_accumulates env2 "a" "b" (Some "blog") (Some "more")
           [post "1"] [post "2"]); reflexivity.
Defined.

Lemma parseSource_passes_over_witness :
  @parseSource env source_without_path false start = (Ok tt, start).
Proof. apply (@parseSource_passes_over env). reflexivity. Defined.

Lemma parseSource_url_registers_witness :
  let source := add_children (ETree.new_Element (Some "blog")) [feed] in
  let st' := snd (@parseSource env source_url false start) in
  fst (@parseSource env source_url false start) = Ok tt
  /\ list_read 2 (world st') = list_read 2 (world start) ++ [Some source]
  /\ (forall i, i <> 2%nat -> list_read i (world st') = list_read i (world start))
  /\ globalsources (self st') = globalsources (self start)
  /\ localsources (self st') = localsources (self start).
Proof.
  apply (@parseSource_url_registers env source_url false start feed).
  - reflexivity.
  - reflexivity.
  - reflexivity.
  - cbn. lia.
Defined.

Lemma parseQuery_trailing_slash_witness :
  @parseQuery env 9
    (Elem queryTAG [("path", ".//post/")] None None (children query_titles)) loaded
  = @parseQuery env 9
      (Elem queryTAG [("path", ".//post")] None None (children query_titles)) loaded.
Proof.
  apply (@parseQuery_trailing_slash env 9 queryTAG ".//post"); reflexivity.
Defined.

Lemma parseGetNode_no_sources_witness :
  @parseGetNode env 5 (Elem getnodeTAG [("path", ".//post")] None None []) start
  = (Ok None, start).
Proof. apply (@parseGetNode_no_sources env 4); reflexivity. Defined.

Lemma parseGetNode_path_fallback_witness :
  @parseGetNode env 5 (Elem getnodeTAG [] None None [getcontent "./title"]) in_query
  = @parseGetNode env 5
      (Elem getnodeTAG [("path", ".//post")] None None [getcontent "./title"])
      in_query.
Proof.
  apply (@parseGetNode_path_fallback env 5 getnodeTAG ".//post");
    [reflexivity|reflexivity|discriminate].
Defined.

Lemma parseXML_getcontent_without_record_witness :
  @parseXML env 5 (Elem "div" [] None None [getcontent "./title"; literal "after"])
    None start
  = (Raise AttributeError, start).
Proof.
  apply (@parseXML_getcontent_without_record env 4). reflexivity.
Defined.

Lemma parseModel_skips_inline_model_witness :
  @parseModel env 9
    (Elem modelTAG [] None None
       ([literal "a"] ++ Elem modelTAG [] None None [source_url; query_titles]
          :: [literal "b"])) start
  = @parseModel env 9
      (Elem modelTAG [] None None ([literal "a"] ++ [literal "b"])) start.
Proof. apply (@parseModel_skips_inline_model env 9). reflexivity. Defined.

Lemma parseModel_load_failure_swallowed_witness :
  @parseModel env 9
    (Elem modelTAG [] None None ([literal "a"] ++ missing_model :: [literal "b"]))
    start
  = @parseModel env 9
      (Elem modelTAG [] None None ([literal "a"] ++ [literal "b"])) start.
Proof.
  apply (@parseModel_load_failure_swallowed env 9 modelTAG [] _ None None None None
           [] [literal "a"] [literal "b"] IOError start); reflexivity.
Defined.


Lemma parseModel_writes_result_witness :
  head (files (world (snd (@parseModel env 9 writing_model start))))
  = Some ("out.txt", "hi").
Proof.
  destruct (@parseModel env 9 writing_model start) as [r st'] eqn:E.
  apply (@parseModel_writes_result env 8 writing_model start st' "hi" "out.txt").
  - reflexivity.
  - discriminate.
  - rewrite E. vm_compute in E. injection E as <- _. reflexivity.
Defined.

Lemma transform_without_key_witness :
  @transform env [post "2"; post "1"] start = (Ok ([], [post "2"; post "1"]), start).
Proof. apply (@transform_without_key env); reflexivity. Defined.

Lemma sources_only_grow_witness :
  let st' := snd (@run env 50 (Model flat_model) start) in
  globalsources (self st') = globalsources (self start)
  /\ forall i, exists more,
       list_read i (world st') = list_read i (world start) ++ more.
Proof.
  cbv zeta.
  destruct (@run env 50 (Model flat_model) start) as [r st'] eqn:E.
  exact (@sources_only_grow env 50 (Model flat_model) start st' r E).
Defined.

Lemma level_restored_witness :
  level (self (snd (@run env 50 (Model flat_model) start))) = level (self start).
Proof.
  destruct (@run env 50 (Model flat_model) start) as [[r|e] st'] eqn:E.
  - exact (@level_restored env 50 (Model flat_model) start st' r E).
  - vm_compute in E. discriminate.
Defined.
End FurtherRuns.
